(** * Structural segmentation (segmenter.py): a shallow embedding

    The numeric kernels of [segmenter.py] are embedded over the real numbers
    of the Standard Library (numpy's float64 arithmetic is read as exact real
    arithmetic), integer frame indices over [Z], names over [string].
    Calls into librosa, scipy and scikit-learn are collaborators of the
    program, not part of it: they are the fields of the record
    [Collaborators], and every assumption made on them is an explicit
    premise of the theorem that needs it.  A Python exception raised by the
    program's own code is the [None] of an [option].

    Part I holds the embedding, Part II the theorems. *)

From Stdlib Require Import String Ascii.
From Stdlib Require Import List ZArith Lia Bool Arith.
From Stdlib Require Import Sorted Permutation.
From Stdlib Require Import Reals Lra.
From Stdlib Require Floats.
Import ListNotations.

(** * Part I: the embedding *)

(** ** Python lists *)

Module Py.

(** [range(start, stop, -1)]: [start, start-1, ..., stop+1]; empty when
    [start <= stop]. *)
Definition range_down (start stop : Z) : list Z :=
  map (fun i => (start - Z.of_nat i)%Z) (seq 0 (Z.to_nat (start - stop))).

(** [l[i]]: a negative index counts from the end, and an index outside
    [-len, len) raises [IndexError]. *)
Definition index {A} (l : list A) (i : Z) : option A :=
  let n := Z.of_nat (length l) in
  if (0 <=? i)%Z then nth_error l (Z.to_nat i)
  else if (0 <=? n + i)%Z then nth_error l (Z.to_nat (n + i))
  else None.

(** A slice bound, as Python normalises it against a length [n]. *)
Definition slice_bound (n i : Z) : Z :=
  if (i <? 0)%Z then Z.max 0 (n + i) else Z.min i n.

(** [l[start:stop]]. *)
Definition slice {A} (l : list A) (start stop : Z) : list A :=
  let n := Z.of_nat (length l) in
  let a := slice_bound n start in
  let b := slice_bound n stop in
  firstn (Z.to_nat (b - a)) (skipn (Z.to_nat a) l).

(** [zip(l[:-1], l[1:])]: the consecutive pairs of [l]. *)
Definition pairs {A} (l : list A) : list (A * A) :=
  combine (removelast l) (tl l).

(** Sequencing of computations that may raise. *)
Definition bind {A B} (m : option A) (f : A -> option B) : option B :=
  match m with
  | Some a => f a
  | None => None
  end.

(** A list comprehension whose body may raise. *)
Fixpoint mapM {A B} (f : A -> option B) (l : list A) : option (list B) :=
  match l with
  | [] => Some []
  | a :: l' =>
      match f a with
      | None => None
      | Some b =>
          match mapM f l' with
          | None => None
          | Some bs => Some (b :: bs)
          end
      end
  end.

End Py.

Notation "x <- m ;; k" := (Py.bind m (fun x => k))
  (at level 61, m at next level, right associativity).

(** ** numpy arrays

    A one-dimensional array is a list, a two-dimensional array the list of
    its rows.  An array with no row has lost its column count; the program
    never builds one from an input with at least one feature dimension. *)

Definition vector := list R.
Definition matrix := list (list R).

(** scipy's eigen-solver returns complex arrays. *)
Definition complex := (R * R)%type.
Definition czero : complex := (0%R, 0%R).

Module Np.

Open Scope R_scope.

Definition shape0 {A} (X : list (list A)) : nat := length X.
Definition shape1 {A} (X : list (list A)) : nat := length (hd [] X).

(** [X[i, j]], with the default [d] outside the array. *)
Definition entry {A} (d : A) (X : list (list A)) (i j : nat) : A :=
  nth j (nth i X []) d.

(** The [n]-by-[m] array with entries [f i j]. *)
Definition tabulate {A} (n m : nat) (f : nat -> nat -> A) : list (list A) :=
  map (fun i => map (fun j => f i j) (seq 0 m)) (seq 0 n).

(** [X.T] *)
Definition transpose_of {A} (d : A) (X : list (list A)) : list (list A) :=
  tabulate (shape1 X) (shape0 X) (fun i j => entry d X j i).

Definition transpose : matrix -> matrix := transpose_of 0.

(** Element-wise operations on arrays of one shape. *)
Fixpoint zip_with {A B C} (f : A -> B -> C) (l : list A) (l' : list B)
  : list C :=
  match l, l' with
  | a :: t, b :: t' => f a b :: zip_with f t t'
  | _, _ => []
  end.

Definition mzip_with {A B C} (f : A -> B -> C)
  (X : list (list A)) (Y : list (list B)) : list (list C) :=
  zip_with (zip_with f) X Y.

Definition mmap {A B} (f : A -> B) (X : list (list A)) : list (list B) :=
  map (map f) X.

(** [np.sum(v)] *)
Definition sum (v : vector) : R := fold_right Rplus 0 v.

(** [np.sum(A, axis=1)] *)
Definition sum_axis1 (A : matrix) : vector := map sum A.

Definition mean (v : vector) : R := sum v / INR (length v).

(** [np.var(v, ddof=1)] *)
Definition var_ddof1 (v : vector) : R :=
  sum (map (fun x => (x - mean v) ^ 2) v) / (INR (length v) - 1).

(** [np.eye(n, k=k)]: ones on the [k]-th diagonal. *)
Definition eye (n : nat) (k : Z) : matrix :=
  tabulate n n
    (fun i j => if (Z.of_nat j =? Z.of_nat i + k)%Z then 1 else 0).

(** [np.diag(v)] *)
Definition diag (v : vector) : matrix :=
  tabulate (length v) (length v)
    (fun i j => if Nat.eqb i j then nth i v 0 else 0).

(** [A.dot(B)] *)
Definition dot (A B : matrix) : matrix :=
  tabulate (shape0 A) (shape1 B)
    (fun i j =>
       sum (map (fun k => entry 0 A i k * entry 0 B k j)
              (seq 0 (shape1 A)))).

(** Booleans promoted to numbers, as in [KNN + np.eye(n)] and
    [.astype(np.float32)]. *)
Definition of_bool (b : bool) : R := if b then 1 else 0.

(** [np.sort(v)], by insertion. *)
Fixpoint insert (x : R) (l : vector) : vector :=
  match l with
  | [] => [x]
  | y :: l' => if Rle_dec x y then x :: l else y :: insert x l'
  end.

Definition sort (v : vector) : vector := fold_right insert [] v.

(** [np.argsort(v)]: the indices of [v] in ascending order of their
    values (equal values keep their order). *)
Fixpoint insert_by (key : nat -> R) (i : nat) (l : list nat) : list nat :=
  match l with
  | [] => [i]
  | j :: l' =>
      if Rle_dec (key i) (key j) then i :: l else j :: insert_by key i l'
  end.

Definition argsort (v : vector) : list nat :=
  fold_right (insert_by (fun i => nth i v 0)) [] (seq 0 (length v)).

(** [np.median(v)] *)
Definition median (v : vector) : R :=
  let s := sort v in
  let n := length v in
  if Nat.even n
  then (nth (n / 2 - 1) s 0 + nth (n / 2) s 0) / 2
  else nth (n / 2) s 0.

(** [np.diff(v)] *)
Definition diff (v : vector) : vector := zip_with Rminus (tl v) v.

(** [np.argmax(v)]: the first index of the largest value; [ValueError] on
    an empty array. *)
Fixpoint argmax_from (best_i : nat) (best : R) (i : nat) (v : vector) : nat :=
  match v with
  | [] => best_i
  | x :: v' =>
      if Rlt_dec best x then argmax_from i x (S i) v'
      else argmax_from best_i best (S i) v'
  end.

Definition argmax (v : vector) : option nat :=
  match v with
  | [] => None
  | x :: v' => Some (argmax_from 0 x 1 v')
  end.

(** [np.max(v)]; [ValueError] on an empty array. *)
Definition max (v : vector) : option R :=
  match v with
  | [] => None
  | x :: v' => Some (fold_left Rmax v' x)
  end.

(** [np.unique(l)] on integers: sorted, without repetition. *)
Fixpoint insert_unique (x : Z) (l : list Z) : list Z :=
  match l with
  | [] => [x]
  | y :: l' =>
      if (x <? y)%Z then x :: l
      else if (x =? y)%Z then l
      else y :: insert_unique x l'
  end.

Definition unique (l : list Z) : list Z := fold_right insert_unique [] l.

(** [X[:, j]]; [IndexError] when the array has no column [j]. *)
Definition column (X : matrix) (j : nat) : option vector :=
  if (j <? shape1 X)%nat then Some (map (fun row => nth j row 0) X)
  else None.

(** [X[:, start:stop]] *)
Definition slice_columns {A} (X : list (list A)) (start stop : Z)
  : list (list A) :=
  map (fun row => Py.slice row start stop) X.

(** [scipy.spatial.distance.cdist(X, Y)]: Euclidean distances between the
    rows of [X] and the rows of [Y]. *)
Definition sqeuclidean (x y : vector) : R :=
  sum (zip_with (fun a b => (a - b) ^ 2) x y).

Definition cdist (X Y : matrix) : matrix :=
  map (fun x => map (fun y => sqrt (sqeuclidean x y)) Y) X.

End Np.

(** ** Collaborators

    The library calls the program makes, as it makes them.  Optional
    arguments the program leaves out are written at the call sites with
    their default values. *)

Record Collaborators : Type := {
  (** [librosa.segment.agglomerative(data, k)]: the frames at which the
      [k] temporally contiguous clusters of the columns of [data] start. *)
  agglomerative : matrix -> Z -> list Z;
  (** [librosa.segment.recurrence_matrix(data, k, width, metric, sym)]: a
      boolean nearest-neighbour graph over the columns of [data]. *)
  recurrence_matrix : matrix -> Z -> Z -> string -> bool -> list (list bool);
  (** [librosa.segment.structure_feature(rec, inverse)] *)
  structure_feature : matrix -> bool -> matrix;
  (** [librosa.feature.sync(data, frames)], aggregating by mean. *)
  sync : matrix -> list Z -> matrix;
  (** [scipy.linalg.eig(L)]: the eigenvalues and, as columns, the
      eigenvectors of [L]. *)
  eig : matrix -> list complex * list (list complex);
  (** [np.pad(S, [(0, 0), (w, w)], mode='reflect')] *)
  pad_reflect : matrix -> nat -> matrix;
  (** [scipy.signal.medfilt2d(S, kernel_size)] *)
  medfilt2d : matrix -> nat * nat -> matrix;
  (** The state of numpy's global random generator. *)
  rng_state : Type;
  (** [sklearn.cluster.SpectralClustering(n_clusters, affinity='precomputed',
      random_state).fit_predict(A)].  With [random_state=None] (the
      default) the initialisation draws from numpy's global generator and
      advances it. *)
  fit_predict : Z -> option Z -> matrix -> rng_state -> list Z * rng_state
}.

(** ** Parameters of the program *)

Definition REP_WIDTH : nat := 7.
Definition N_REP : nat := 32.
Definition LABEL_K : Z := 3.
Definition GAP_TAU : R := 0%R.
Definition SIGMA_MIN : R := (1 / 10000)%R.

Definition N_MFCC : nat := 32.
Definition N_CHROMA : nat := 12.

(** mfcc, chroma, repetitions for each, and 4 time features *)
Definition __DIMENSION : nat := (N_MFCC + N_CHROMA + 2 * N_REP + 4)%nat.

Definition ascii_uppercase : list ascii := map ascii_of_nat (seq 65 26).
Definition ascii_lowercase : list ascii := map ascii_of_nat (seq 97 26).

Definition SEGMENT_NAMES : list string :=
  map (fun x => String x EmptyString) ascii_uppercase
  ++ flat_map
       (fun x =>
          map (fun y => String x (String y EmptyString)) ascii_lowercase)
       ascii_uppercase.

(** ** Graph Laplacian and repetition features *)

Open Scope R_scope.

Definition rw_laplacian (A : matrix) : matrix :=
  let Dinv := Np.diag (map (fun s => / s) (Np.sum_axis1 A)) in
  Np.mzip_with Rminus (Np.eye (Np.shape0 A) 0) (Np.dot Dinv A).

Definition clean_reps (E : Collaborators) (Sm : matrix) : matrix :=
  let Sf := pad_reflect E Sm REP_WIDTH in
  let Sf := medfilt2d E Sf (1%nat, REP_WIDTH) in
  Np.slice_columns Sf (Z.of_nat REP_WIDTH) (- Z.of_nat REP_WIDTH).

(** [k] is a count ([N_REP] at the only call).  The eigenvalues are
    trimmed and padded along with the eigenvectors in the source; only
    their number is read afterwards, and only the eigenvectors are
    returned. *)
Definition laplacian_eigenvectors (E : Collaborators) (L : matrix) (k : nat)
  : list (list complex) :=
  let '(e_vals, e_vecs) := eig E L in
  let e_vals := map fst e_vals in
  let idx := Np.argsort e_vals in
  let e_vals := map (fun i => nth i e_vals 0) idx in
  let e_vecs := map (fun row => map (fun j => nth j row czero) idx) e_vecs in
  let e_vals := tl e_vals in
  let e_vecs := map (@tl complex) e_vecs in
  let e_vecs :=
    if (k <? length e_vals)%nat then map (firstn k) e_vecs
    else if (length e_vals <? k)%nat then
      map (fun row => row ++ repeat czero (k - Np.shape1 e_vecs)) e_vecs
    else e_vecs in
  Np.transpose_of czero (map (firstn k) e_vecs).

(** [int(np.ceil(np.sqrt(n)))] *)
Definition ceil_sqrt (n : Z) : Z :=
  let s := Z.sqrt n in if (s * s =? n)%Z then s else (s + 1)%Z.

(** The de-skewed, median-filtered recurrence matrix [Rf] of [repetition],
    before it is symmetrised. *)
Definition repetition_filtered (E : Collaborators) (X : matrix)
  (metric : string) : matrix :=
  let R := Np.mmap Np.of_bool
             (recurrence_matrix E X (2 * ceil_sqrt (Z.of_nat (Np.shape1 X)))
                (Z.of_nat REP_WIDTH) metric true) in
  let Sm := structure_feature E R false in
  let Sf := clean_reps E Sm in
  structure_feature E Sf true.

(** The graph [M] whose Laplacian [repetition] takes. *)
Definition repetition_graph (E : Collaborators) (X : matrix)
  (metric : string) : matrix :=
  let Rf := repetition_filtered E X metric in
  let Rf := Np.mzip_with Rmax Rf (Np.transpose Rf) in
  Np.mzip_with Rplus
    (Np.mzip_with Rplus Rf (Np.eye (Np.shape0 Rf) 1))
    (Np.eye (Np.shape0 Rf) (-1)).

Definition repetition (E : Collaborators) (X : matrix) (metric : string)
  : list (list complex) :=
  let M := repetition_graph E X metric in
  let L := rw_laplacian M in
  laplacian_eigenvectors E L N_REP.

(** ** Costs of a boundary set *)

Definition gaussian_cost (X : matrix) : R :=
  let d := Np.shape0 X in
  let n := Np.shape1 X in
  if (n <? 2)%nat then 0
  else
    let sigma := map Np.var_ddof1 X in
    - (1 / 2) * INR d * INR n * ln (2 * PI)
    - (1 / 2) * (INR n - 1) * Np.sum sigma.

Definition clustering_cost (X : matrix) (boundaries : list Z) : R :=
  let k := (Z.of_nat (length boundaries) - 1)%Z in
  let d := INR (Np.shape0 X) in
  let n := INR (Np.shape1 X) in
  let cost :=
    map (fun se => gaussian_cost (Np.slice_columns X (fst se) (snd se)))
      (Py.pairs boundaries) in
  - 2 * Np.sum cost / n + 2 * (d * IZR k).

(** ** Affinity and cluster count *)

Definition label_build_affinity (E : Collaborators) (X : matrix) (k : Z)
  (local : bool) : option matrix :=
  let n := length X in
  let k := Z.min k (Z.of_nat n - 1) in
  let D := Np.mmap (fun x => x ^ 2) (Np.cdist X X) in
  Dsort <- Np.column (map Np.sort D) 1 ;;
  let Dsort := map (fun x => Rmax x SIGMA_MIN) Dsort in
  let A :=
    if local then
      let sigma :=
        map (fun a => map (fun b => sqrt (a * b)) Dsort) Dsort in
      Np.mzip_with (fun d s => exp (- (1 / 2) * (d / s))) D sigma
    else
      let sigma := Np.median Dsort in
      Np.mmap (fun d => exp (- (1 / 2) * (d / sigma))) D in
  let KNN := recurrence_matrix E (Np.transpose X) k 1 "sqeuclidean" true in
  let KNN := Np.mzip_with Rplus (Np.mmap Np.of_bool KNN) (Np.eye n 0) in
  Some (Np.mzip_with Rmult A KNN).

Definition label_estimate_n_components (E : Collaborators) (A : matrix)
  : option (Z * R) :=
  let L := rw_laplacian A in
  let spectrum := map fst (fst (eig E L)) in
  let spectrum := Np.sort spectrum in
  let spectral_gap := Np.diff spectrum in
  i <- Np.argmax spectral_gap ;;
  g <- Np.max spectral_gap ;;
  Some ((1 + Z.of_nat i)%Z, g).

Definition spectral_cost (E : Collaborators) (X : matrix)
  (boundaries : list Z) : option R :=
  A <- label_build_affinity E (Np.transpose (sync E X boundaries))
         LABEL_K false ;;
  r <- label_estimate_n_components E A ;;
  Some (- Rmax (snd r) GAP_TAU).

(** ** Boundary detection *)

Definition get_k_segments (E : Collaborators) (X_bound X_lab : matrix)
  (k : Z) (use_spectral : bool) : option (list Z * R) :=
  let boundaries := agglomerative E X_bound k in
  let boundaries :=
    Np.unique ([0%Z] ++ boundaries ++ [Z.of_nat (Np.shape1 X_bound)]) in
  cost <- (if use_spectral then spectral_cost E X_lab boundaries
           else Some (clustering_cost X_bound boundaries)) ;;
  Some (boundaries, cost).

(** The loop of [get_segments] asks of a cost only Python's [<=] and a
    value [np.inf] to start from.  It is embedded over any cost type with
    these, and used below at the extended reals and at IEEE binary64. *)

Section GreedyScan.

Variable cost : Type.
Variable cost_le : cost -> cost -> bool.
Variable inf : cost.

(** [get_k_segments(X_bound, X_lab, k, use_spectral)] as a function of
    [k]. *)
Variable candidate : Z -> option (list Z * cost).

(** The [for] loop over the remaining candidates [ks], from the current
    [cost_min] and [S_best]. *)
Fixpoint scan (ks : list Z) (cost_min : cost) (S_best : list Z)
  : option (list Z) :=
  match ks with
  | [] => Some S_best
  | k :: ks' =>
      match candidate k with
      | None => None
      | Some (Sk, c) =>
          if cost_le c cost_min then scan ks' c Sk else Some S_best
      end
  end.

Definition greedy_scan (kmin kmax : Z) : option (list Z) :=
  scan (Py.range_down kmax kmin) inf [].

End GreedyScan.

Arguments scan {cost} cost_le candidate ks cost_min S_best.
Arguments greedy_scan {cost} cost_le inf candidate kmin kmax.

(** A float64 cost that is a number, or [np.inf]. *)
Inductive ecost : Type :=
| Finite (r : R)
| Infinity.

Definition ecost_le (a b : ecost) : bool :=
  match a, b with
  | _, Infinity => true
  | Infinity, Finite _ => false
  | Finite x, Finite y => if Rle_dec x y then true else false
  end.

Definition get_segments (E : Collaborators) (X W_bound W_lab : matrix)
  (use_spectral : bool) (kmin kmax : Z) : option (list Z) :=
  let X_bound := Np.dot W_bound X in
  let X_lab := Np.dot W_lab X in
  greedy_scan ecost_le Infinity
    (fun k =>
       r <- get_k_segments E X_bound X_lab k use_spectral ;;
       Some (fst r, Finite (snd r)))
    kmin kmax.

(** ** Labelling *)

(** The affinity matrix and the cluster count that [label_segments] hands
    to the clustering object. *)
Definition label_segments_clusters (E : Collaborators) (X : matrix)
  : option (matrix * Z) :=
  A <- label_build_affinity E (Np.transpose X) LABEL_K false ;;
  r <- label_estimate_n_components E A ;;
  let n_labels := fst r in
  let n_labels := Z.min (Z.of_nat (length A) - 1) (Z.max 2 n_labels) in
  Some (A, n_labels).

(** [label_segments] reads numpy's global generator through the
    clustering object, which it builds without a [random_state]; the
    generator's state is threaded explicitly. *)
Definition label_segments (E : Collaborators) (X : matrix)
  (g : rng_state E) : option (list string * rng_state E) :=
  An <- label_segments_clusters E X ;;
  let '(seg_ids, g') := fit_predict E (snd An) None (fst An) g in
  labels <- Py.mapM (Py.index SEGMENT_NAMES) seg_ids ;;
  Some (labels, g').

(** ** The pipeline *)



(** [load_transform]; [transform_file] is [None], or the array [np.load]
    reads from the file. *)
Definition load_transform (transform_file : option matrix) : matrix :=
  match transform_file with
  | None => Np.eye __DIMENSION 0
  | Some W => W
  end.

(** The lines [save_segments] writes, as (start, end, label) triples;
    [Sb] is the boundary set [S]. *)
Definition save_segments (Sb : list Z) (beats : vector)
  (labels : list string) : option (list (R * R * string)) :=
  times <- Py.mapM (Py.index beats) Sb ;;
  Some (combine (Py.pairs times) labels).


(** ** Decision procedures and test data *)

(** No name occurs twice in [l]. *)
Fixpoint distinctb (l : list string) : bool :=
  match l with
  | [] => true
  | s :: l' => negb (existsb (String.eqb s) l') && distinctb l'
  end.

(** Synthetic cost sequences over binary64, to run the greedy scan on. *)
Module Float64.

Import PrimFloat.

(** A table of (k, boundaries, cost) read as [get_k_segments]; a [k]
    outside the table raises. *)
Fixpoint lookup (table : list (Z * (list Z * float))) (k : Z)
  : option (list Z * float) :=
  match table with
  | [] => None
  | (k', r) :: table' => if (k =? k')%Z then Some r else lookup table' k
  end.

Definition scan_table (table : list (Z * (list Z * float)))
  (kmin kmax : Z) : option (list Z) :=
  greedy_scan leb infinity (lookup table) kmin kmax.

(** One candidate; its boundary set names its [k]. *)
Definition row (k : Z) (c : float) : Z * (list Z * float) := (k, ([k], c)).

Definition costs_tie : list (Z * (list Z * float)) :=
  [ row 5 3.5; row 4 2.25; row 3 2.25; row 2 3.0 ]%float.

Definition costs_fall : list (Z * (list Z * float)) :=
  [ row 5 3.5; row 4 2.25; row 3 2.0; row 2 1.0 ]%float.

Definition costs_rise : list (Z * (list Z * float)) :=
  [ row 6 4.0; row 5 3.0; row 4 3.5; row 3 0.5; row 2 0.25 ]%float.

(** The first candidate's cost is not a number. *)
Definition costs_nan : list (Z * (list Z * float)) :=
  [ row 4 nan; row 3 1.0; row 2 0.5 ]%float.

(** [kmin = 2], [kmax = 3]: the candidate [k = 3] costs 5.0, and [at_kmin]
    is whatever [get_k_segments] would do at [k = 2]. *)
Definition kmin_2_kmax_3 (at_kmin : option (list Z * float)) (k : Z)
  : option (list Z * float) :=
  if (k =? 3)%Z then Some ([0; 10; 20; 30]%Z, 5.0%float)
  else if (k =? 2)%Z then at_kmin
  else None.

End Float64.

(** Stand-ins for the collaborators, to run the program on. *)
Module Toy.

(** The first [k - 1] frames are clusters of their own. *)
Definition agglomerative (X : matrix) (k : Z) : list Z :=
  map Z.of_nat (seq 0 (Nat.min (Z.to_nat k) (Np.shape1 X))).

(** Every other frame is a neighbour. *)
Definition recurrence_matrix (data : matrix) (k width : Z) (metric : string)
  (sym : bool) : list (list bool) :=
  let n := Np.shape1 data in
  Np.tabulate n n (fun i j => negb (Nat.eqb i j)).

Definition structure_feature (R : matrix) (inverse : bool) : matrix := R.

(** The mean of every row over each span between two frames. *)
Definition sync (X : matrix) (frames : list Z) : matrix :=
  map (fun row =>
         map (fun se => Np.mean (Py.slice row (fst se) (snd se)))
           (Py.pairs frames))
    X.

(** Eigenvalues 0, 1, ..., n - 1 and the unit vectors. *)
Definition eig (L : matrix) : list complex * list (list complex) :=
  let n := length L in
  (map (fun i => (INR i, 0)) (seq 0 n),
   Np.tabulate n n (fun i j => if Nat.eqb i j then (1, 0) else czero)).

Definition pad_reflect (Sm : matrix) (w : nat) : matrix :=
  map (fun row => repeat 0 w ++ row ++ repeat 0 w) Sm.

Definition medfilt2d (Sm : matrix) (kernel_size : nat * nat) : matrix := Sm.

(** Segment [i] goes to cluster [(start + i) mod n_clusters], where
    [start] is the seed when there is one and else the parity of the
    generator's state, which is then advanced. *)
Definition fit_predict (n_clusters : Z) (random_state : option Z)
  (A : matrix) (g : Z) : list Z * Z :=
  match random_state with
  | Some seed =>
      (map (fun i => ((seed + Z.of_nat i) mod n_clusters)%Z)
         (seq 0 (length A)), g)
  | None =>
      (map (fun i => ((g mod 2 + Z.of_nat i) mod n_clusters)%Z)
         (seq 0 (length A)), (g + 1)%Z)
  end.

Definition collaborators : Collaborators :=
  Build_Collaborators agglomerative recurrence_matrix structure_feature
    sync eig pad_reflect medfilt2d Z fit_predict.

(** Two features over four frames, and the identity transform. *)
Definition X4 : matrix := [[0; 1; 2; 3]; [1; 0; 1; 0]].
Definition W2 : matrix := Np.eye 2 0.

(** One feature over two frames. *)
Definition X2 : matrix := [[0; 2]].

(** Three points on a line, one per row. *)
Definition P3 : matrix := [[0]; [1]; [3]].

(** One feature over three segments. *)
Definition X3 : matrix := [[0; 1; 3]].

(** The affinity matrices of the segments of [X2] and of [X3]. *)
Definition affinity_of (X : matrix) : matrix :=
  match label_build_affinity collaborators (Np.transpose X) LABEL_K false
  with
  | Some A => A
  | None => []
  end.

Definition A2 : matrix := affinity_of X2.
Definition A3 : matrix := affinity_of X3.

(** Beat times of four frames and the duration. *)
Definition beats4 : vector := [0; 1; 2; 3; 4].


(** The Laplacian of two frames joined by one edge. *)
Definition L2 : matrix := [[1; -1]; [-1; 1]].

End Toy.

(** ** Specification predicates *)



(** All rows of [X] have [m] entries. *)
Definition row_length (m : nat) {A} (X : list (list A)) : Prop :=
  Forall (fun row => length row = m) X.

(** [X] is an [n]-by-[m] array. *)
Definition has_shape (n m : nat) {A} (X : list (list A)) : Prop :=
  length X = n /\ row_length m X.






(** Column [j] of the eigenvector array: the [j]-th eigenvector. *)
Definition eigenvector (e_vecs : list (list complex)) (j : nat)
  : list complex :=
  map (fun row => nth j row czero) e_vecs.

(** The eigenvectors of [L] in ascending order of the real parts of their
    eigenvalues. *)
Definition sorted_eigenvectors (E : Collaborators) (L : matrix)
  : list (list complex) :=
  map (eigenvector (snd (eig E L))) (Np.argsort (map fst (fst (eig E L)))).

(** * Part II: properties *)

(** ** Segment names *)

Module Names.

Lemma distinctb_NoDup (l : list string) : distinctb l = true -> NoDup l.
Proof.
  induction l as [|s l IH]; simpl; intros H.
  - constructor.
  - apply andb_true_iff in H as [Hs Hl].
    constructor; [|auto].
    intros Hin. apply negb_true_iff in Hs.
    assert (existsb (String.eqb s) l = true) as Hex.
    { apply existsb_exists. exists s. split; [exact Hin|apply String.eqb_refl]. }
    congruence.
Qed.

Lemma names_length : length SEGMENT_NAMES = 702%nat.
Proof. reflexivity. Qed.

Lemma names_NoDup : NoDup SEGMENT_NAMES.
Proof. apply distinctb_NoDup. vm_compute. reflexivity. Qed.

Lemma index_nonneg {A} (l : list A) (i : Z) :
  (0 <= i)%Z -> Py.index l i = nth_error l (Z.to_nat i).
Proof.
  intros Hi. unfold Py.index.
  destruct (Z.leb_spec 0 i) as [_|Hn]; [reflexivity|lia].
Qed.

(** C6 (as the claim states it, refuted): the name of index 702, well
    inside 0...10000, is not defined: the lookup raises [IndexError]. *)
Lemma segment_name_702_undefined : Py.index SEGMENT_NAMES 702 = None.
Proof. vm_compute. reflexivity. Qed.

(** C6 (amended): the names of indices 0, 25, 26 and 27 are "A", "Z", "Aa"
    and "Ab"; the table holds exactly 702 = 26 + 26 * 26 names, pairwise
    distinct, so the lookup is injective on 0...701; every index from 702
    on raises [IndexError]. *)
Theorem segment_names_finite_injective :
  Py.index SEGMENT_NAMES 0 = Some "A"%string
  /\ Py.index SEGMENT_NAMES 25 = Some "Z"%string
  /\ Py.index SEGMENT_NAMES 26 = Some "Aa"%string
  /\ Py.index SEGMENT_NAMES 27 = Some "Ab"%string
  /\ length SEGMENT_NAMES = 702%nat
  /\ (forall i j : Z,
        (0 <= i < 702)%Z -> (0 <= j < 702)%Z ->
        Py.index SEGMENT_NAMES i = Py.index SEGMENT_NAMES j -> i = j)
  /\ (forall i : Z, (0 <= i < 702)%Z ->
        exists s, Py.index SEGMENT_NAMES i = Some s)
  /\ (forall i : Z, (702 <= i)%Z -> Py.index SEGMENT_NAMES i = None).
Proof.
  repeat split; try (vm_compute; reflexivity).
  - intros i j Hi Hj Heq.
    rewrite !index_nonneg in Heq by lia.
    assert (Z.to_nat i = Z.to_nat j) as Hn; [|lia].
    apply (proj1 (NoDup_nth_error SEGMENT_NAMES) names_NoDup); [|exact Heq].
    rewrite names_length. lia.
  - intros i Hi. rewrite index_nonneg by lia.
    destruct (nth_error SEGMENT_NAMES (Z.to_nat i)) as [s|] eqn:Hs.
    + exists s. reflexivity.
    + apply nth_error_None in Hs. rewrite names_length in Hs. lia.
  - intros i Hi. rewrite index_nonneg by lia.
    apply nth_error_None. rewrite names_length. lia.
Qed.

End Names.

(** ** The greedy scan *)

Lemma range_down_nil (start stop : Z) :
  (start <= stop)%Z -> Py.range_down start stop = [].
Proof.
  intros H. unfold Py.range_down.
  replace (Z.to_nat (start - stop)) with 0%nat by lia. reflexivity.
Qed.

Lemma range_down_cons (start stop : Z) :
  (stop < start)%Z ->
  Py.range_down start stop = start :: Py.range_down (start - 1) stop.
Proof.
  intros H. unfold Py.range_down.
  replace (Z.to_nat (start - stop)) with (S (Z.to_nat (start - 1 - stop)))
    by lia.
  rewrite <- cons_seq, <- seq_shift. simpl. rewrite map_map.
  f_equal; [f_equal; lia|].
  apply map_ext. intros i. lia.
Qed.

Lemma range_down_In (start stop k : Z) :
  In k (Py.range_down start stop) <-> (stop < k <= start)%Z.
Proof.
  unfold Py.range_down. rewrite in_map_iff. split.
  - intros (i & <- & Hi). apply in_seq in Hi. lia.
  - intros Hk. exists (Z.to_nat (start - k)). split; [lia|].
    apply in_seq. lia.
Qed.

Section GreedyScanFacts.

Variable cost : Type.
Variable cost_le : cost -> cost -> bool.
Variable inf : cost.

(** The scan reads its candidates only at the values it is given. *)
Lemma scan_ext (c1 c2 : Z -> option (list Z * cost)) (ks : list Z) :
  (forall k, In k ks -> c1 k = c2 k) ->
  forall cost_min S_best,
    scan cost_le c1 ks cost_min S_best = scan cost_le c2 ks cost_min S_best.
Proof.
  induction ks as [|k ks IH]; intros Hext cost_min S_best; simpl.
  - reflexivity.
  - rewrite <- (Hext k) by (left; reflexivity).
    destruct (c1 k) as [[Sk c]|]; [|reflexivity].
    destruct (cost_le c cost_min); [|reflexivity].
    apply IH. intros k' Hk'. apply Hext. right. exact Hk'.
Qed.

(** [get_segments] never calls [get_k_segments] at [kmin] (nor below it,
    nor above [kmax]). *)
Lemma greedy_scan_reads_open_range (c1 c2 : Z -> option (list Z * cost))
  (kmin kmax : Z) :
  (forall k, (kmin < k <= kmax)%Z -> c1 k = c2 k) ->
  greedy_scan cost_le inf c1 kmin kmax = greedy_scan cost_le inf c2 kmin kmax.
Proof.
  intros Hext. unfold greedy_scan. apply scan_ext.
  intros k Hk. apply Hext. apply range_down_In. exact Hk.
Qed.

Variable candidate : Z -> option (list Z * cost).
Variable bounds_of : Z -> list Z.
Variable cost_of : Z -> cost.
Variables kmin kmax : Z.

Hypothesis candidate_returns :
  forall k, (kmin < k <= kmax)%Z ->
    candidate k = Some (bounds_of k, cost_of k).

(** The loop, entered below an accepted candidate [k + 1]. *)
Lemma scan_below_accepted (n : nat) :
  forall k,
    Z.to_nat (k - kmin) = n -> (kmin <= k < kmax)%Z ->
    exists kstar,
      (kmin < kstar <= k + 1)%Z
      /\ scan cost_le candidate (Py.range_down k kmin)
           (cost_of (k + 1)) (bounds_of (k + 1)) = Some (bounds_of kstar)
      /\ (forall j, (kstar <= j <= k)%Z ->
            cost_le (cost_of j) (cost_of (j + 1)) = true)
      /\ ((kmin + 1 < kstar)%Z ->
            cost_le (cost_of (kstar - 1)) (cost_of kstar) = false).
Proof.
  induction n as [|n IH]; intros k Hn Hk.
  - assert (k = kmin) as -> by lia.
    exists (kmin + 1)%Z. rewrite range_down_nil by lia. simpl.
    repeat split; try lia.
  - rewrite range_down_cons by lia. simpl.
    rewrite candidate_returns by lia.
    destruct (cost_le (cost_of k) (cost_of (k + 1))) eqn:Hle.
    + destruct (IH (k - 1)%Z) as (kstar & Hr & Hs & Hacc & Hstop);
        [lia|lia|].
      replace (k - 1 + 1)%Z with k in * by lia.
      exists kstar. repeat split; try lia; auto.
      intros j Hj. destruct (Z.eq_dec j k) as [->|Hne]; [exact Hle|].
      apply Hacc. lia.
    + exists (k + 1)%Z. repeat split; try lia.
      intros _. replace (k + 1 - 1)%Z with k by lia. exact Hle.
Qed.

(** The greedy rule, for any cost type: when the first candidate is
    accepted against [np.inf], the scan returns the boundary set of the
    candidate [kstar] such that every candidate from [kmax - 1] down to
    [kstar] was accepted against its predecessor, and the candidate below
    [kstar], if the range holds one, was refused. *)
Lemma greedy_scan_spec :
  (kmin < kmax)%Z ->
  cost_le (cost_of kmax) inf = true ->
  exists kstar,
    (kmin < kstar <= kmax)%Z
    /\ greedy_scan cost_le inf candidate kmin kmax = Some (bounds_of kstar)
    /\ (forall j, (kstar <= j < kmax)%Z ->
          cost_le (cost_of j) (cost_of (j + 1)) = true)
    /\ ((kmin + 1 < kstar)%Z ->
          cost_le (cost_of (kstar - 1)) (cost_of kstar) = false).
Proof.
  intros Hk Htop. unfold greedy_scan.
  rewrite range_down_cons by lia. simpl.
  rewrite candidate_returns by lia. rewrite Htop.
  destruct (scan_below_accepted (Z.to_nat (kmax - 1 - kmin))
              (kmax - 1)%Z eq_refl) as (kstar & Hr & Hs & Hacc & Hstop);
    [lia|].
  replace (kmax - 1 + 1)%Z with kmax in * by lia.
  exists kstar. repeat split; try lia; auto.
  intros j Hj. apply Hacc. lia.
Qed.

End GreedyScanFacts.


(** ** [np.unique] *)

Lemma insert_unique_In (x y : Z) (l : list Z) :
  In y (Np.insert_unique x l) <-> y = x \/ In y l.
Proof.
  induction l as [|z l IH]; simpl.
  - intuition.
  - destruct (Z.ltb_spec x z) as [Hlt|Hge]; simpl; [intuition|].
    destruct (Z.eqb_spec x z) as [->|Hne]; simpl; [intuition|].
    rewrite IH. intuition.
Qed.

Lemma unique_In (y : Z) (l : list Z) : In y (Np.unique l) <-> In y l.
Proof.
  induction l as [|x l IH]; simpl; [reflexivity|].
  rewrite insert_unique_In, IH. intuition.
Qed.








(** ** Boundary sets *)

Lemma ecost_le_Infinity (a : ecost) : ecost_le a Infinity = true.
Proof. destruct a; reflexivity. Qed.

Lemma ecost_le_Finite (x y : R) :
  ecost_le (Finite x) (Finite y) = true <-> x <= y.
Proof.
  simpl. destruct (Rle_dec x y); split; intros; try discriminate; tauto.
Qed.

Lemma ecost_le_Finite_false (x y : R) :
  ecost_le (Finite x) (Finite y) = false <-> y < x.
Proof.
  simpl. destruct (Rle_dec x y); split; intros; try discriminate;
    try reflexivity; lra.
Qed.


Lemma get_k_segments_boundaries (E : Collaborators) (X_bound X_lab : matrix)
  (k : Z) (use_spectral : bool) (b : list Z) (c : R) :
  get_k_segments E X_bound X_lab k use_spectral = Some (b, c) ->
  b = Np.unique ([0%Z] ++ agglomerative E X_bound k
                 ++ [Z.of_nat (Np.shape1 X_bound)]).
Proof.
  unfold get_k_segments.
  destruct use_spectral.
  - destruct (spectral_cost _ _ _); simpl; [|discriminate].
    intros [= <- _]. reflexivity.
  - simpl. intros [= <- _]. reflexivity.
Qed.








(** ** The stopping rule of [get_segments] *)

(** C1: with [kmin < kmax] and candidates [get_k_segments] returns as
    [(bounds_of k, cost_of k)], [get_segments] starts from [np.inf] at
    [kmax] and moves down; it returns the boundary set of the candidate
    [kstar] such that every candidate from [kmax] down to [kstar] was
    accepted, its cost being at most the cost of the candidate before it
    (the current best; a tie moves on to the lower [k]), and the next
    candidate [kstar - 1], when the scan still holds one, costs strictly
    more than [kstar], which stops the scan. *)
Theorem get_segments_greedy (E : Collaborators) (X W_bound W_lab : matrix)
  (use_spectral : bool) (kmin kmax : Z)
  (bounds_of : Z -> list Z) (cost_of : Z -> R) :
  (kmin < kmax)%Z ->
  (forall k, (kmin < k <= kmax)%Z ->
     get_k_segments E (Np.dot W_bound X) (Np.dot W_lab X) k use_spectral
     = Some (bounds_of k, cost_of k)) ->
  exists kstar,
    (kmin < kstar <= kmax)%Z
    /\ get_segments E X W_bound W_lab use_spectral kmin kmax
       = Some (bounds_of kstar)
    /\ (forall k, (kstar <= k < kmax)%Z -> cost_of k <= cost_of (k + 1)%Z)
    /\ ((kmin + 1 < kstar)%Z -> cost_of kstar < cost_of (kstar - 1)%Z).
Proof.
  intros Hlt Hret.
  destruct (greedy_scan_spec _ ecost_le Infinity
              (fun k =>
                 r <- get_k_segments E (Np.dot W_bound X) (Np.dot W_lab X)
                        k use_spectral ;;
                 Some (fst r, Finite (snd r)))
              bounds_of (fun k => Finite (cost_of k)) kmin kmax)
    as (kstar & Hr & Hs & Hacc & Hstop).
  - intros k Hk. rewrite Hret by exact Hk. reflexivity.
  - exact Hlt.
  - reflexivity.
  - exists kstar. split; [exact Hr|]. split; [exact Hs|]. split.
    + intros k Hk. apply ecost_le_Finite. apply Hacc. exact Hk.
    + intros Hk. apply ecost_le_Finite_false. apply Hstop. exact Hk.
Qed.

Lemma get_segments_greedy_witness :
  exists kstar,
    (2 < kstar <= 4)%Z
    /\ get_segments Toy.collaborators Toy.X4 Toy.W2 Toy.W2 false 2 4
       = Some (Np.unique ([0%Z] ++ Toy.agglomerative
                                     (Np.dot Toy.W2 Toy.X4) kstar
                          ++ [Z.of_nat (Np.shape1 (Np.dot Toy.W2 Toy.X4))]))
    /\ (forall k, (kstar <= k < 4)%Z ->
          clustering_cost (Np.dot Toy.W2 Toy.X4)
            (Np.unique ([0%Z] ++ Toy.agglomerative
                                   (Np.dot Toy.W2 Toy.X4) k
                        ++ [Z.of_nat (Np.shape1 (Np.dot Toy.W2 Toy.X4))]))
          <= clustering_cost (Np.dot Toy.W2 Toy.X4)
               (Np.unique ([0%Z] ++ Toy.agglomerative
                                      (Np.dot Toy.W2 Toy.X4) (k + 1)%Z
                           ++ [Z.of_nat
                                 (Np.shape1 (Np.dot Toy.W2 Toy.X4))])))
    /\ ((2 + 1 < kstar)%Z ->
          clustering_cost (Np.dot Toy.W2 Toy.X4)
            (Np.unique ([0%Z] ++ Toy.agglomerative
                                   (Np.dot Toy.W2 Toy.X4) kstar
                        ++ [Z.of_nat (Np.shape1 (Np.dot Toy.W2 Toy.X4))]))
          < clustering_cost (Np.dot Toy.W2 Toy.X4)
              (Np.unique ([0%Z] ++ Toy.agglomerative
                                     (Np.dot Toy.W2 Toy.X4) (kstar - 1)%Z
                          ++ [Z.of_nat
                                (Np.shape1 (Np.dot Toy.W2 Toy.X4))]))).
Proof.
  apply (get_segments_greedy Toy.collaborators Toy.X4 Toy.W2 Toy.W2 false
           2 4
           (fun k =>
              Np.unique ([0%Z] ++ Toy.agglomerative
                                    (Np.dot Toy.W2 Toy.X4) k
                         ++ [Z.of_nat (Np.shape1 (Np.dot Toy.W2 Toy.X4))]))
           (fun k =>
              clustering_cost (Np.dot Toy.W2 Toy.X4)
                (Np.unique ([0%Z] ++ Toy.agglomerative
                                       (Np.dot Toy.W2 Toy.X4) k
                            ++ [Z.of_nat
                                  (Np.shape1 (Np.dot Toy.W2 Toy.X4))])))).
  - lia.
  - intros k Hk. reflexivity.
Defined.

(** The rule on synthetic cost sequences over binary64. *)

(** Costs 3.5, 2.25, 2.25, 3.0 for k = 5, 4, 3, 2: the tie at k = 3 is
    accepted, the rise at k = 2 stops the scan, and k = 3 is returned. *)
Example scan_tie_goes_to_lower_k :
  Float64.scan_table Float64.costs_tie 1 5 = Some [3%Z].
Proof. vm_compute. reflexivity. Qed.

(** Costs 4.0, 3.0, 3.5, 0.5, 0.25 for k = 6, ..., 2: the scan stops at
    the first rise and returns k = 5, although k = 2 costs least. *)
Example scan_stops_at_first_rise :
  Float64.scan_table Float64.costs_rise 1 6 = Some [5%Z].
Proof. vm_compute. reflexivity. Qed.

(** Costs that fall at every step: the scan runs to its end, which is
    k = kmin + 1 = 3 when kmin = 2, although k = 2 costs less. *)
Example scan_falling_costs_ends_above_kmin :
  Float64.scan_table Float64.costs_fall 2 5 = Some [3%Z]
  /\ Float64.scan_table Float64.costs_fall 1 5 = Some [2%Z].
Proof. split; vm_compute; reflexivity. Qed.

(** C3 (the code at its failing input): with [kmin = 2] and [kmax = 3]
    the scan returns the boundary set of k = 3 whatever
    [get_k_segments] does at k = 2 (a lower cost, a higher one, an
    exception): the candidate k = kmin is never evaluated. *)
Theorem get_segments_never_evaluates_kmin :
  forall at_kmin : option (list Z * PrimFloat.float),
    greedy_scan PrimFloat.leb PrimFloat.infinity
      (Float64.kmin_2_kmax_3 at_kmin) 2 3
    = Some [0; 10; 20; 30]%Z.
Proof. intros at_kmin. reflexivity. Qed.

(** ** The likelihood-penalized cost *)






Lemma slice_length {A} (l : list A) (start stop : Z) :
  length (Py.slice l start stop)
  = Nat.min
      (Z.to_nat (Py.slice_bound (Z.of_nat (length l)) stop
                 - Py.slice_bound (Z.of_nat (length l)) start))
      (length l - Z.to_nat (Py.slice_bound (Z.of_nat (length l)) start)).
Proof. unfold Py.slice. rewrite length_firstn, length_skipn. reflexivity. Qed.

Lemma slice_columns_row_length {A} (m : nat) (X : list (list A))
  (start stop : Z) :
  row_length m X ->
  row_length (Np.shape1 (Np.slice_columns X start stop))
    (Np.slice_columns X start stop).
Proof.
  intros Hrows. unfold Np.shape1, Np.slice_columns, row_length.
  rewrite Forall_map. destruct Hrows as [|row X Hrow Hrows]; [constructor|].
  simpl. constructor; [reflexivity|].
  eapply Forall_impl; [|exact Hrows]. simpl. intros row' Hrow'.
  rewrite !slice_length, Hrow, Hrow'. reflexivity.
Qed.







(** ** Arrays: shapes and entries *)

Lemma tabulate_length {A} (n m : nat) (f : nat -> nat -> A) :
  length (Np.tabulate n m f) = n.
Proof. unfold Np.tabulate. rewrite length_map, length_seq. reflexivity. Qed.

Lemma tabulate_row {A} (n m : nat) (f : nat -> nat -> A) (i : nat) :
  (i < n)%nat ->
  nth i (Np.tabulate n m f) [] = map (fun j => f i j) (seq 0 m).
Proof.
  intros Hi. unfold Np.tabulate.
  rewrite (nth_indep _ [] (map (fun j => f 0%nat j) (seq 0 m)))
    by (rewrite length_map, length_seq; exact Hi).
  rewrite (map_nth (fun i => map (fun j => f i j) (seq 0 m)) (seq 0 n) 0%nat i).
  rewrite seq_nth by exact Hi. reflexivity.
Qed.

Lemma tabulate_entry {A} (d : A) (n m : nat) (f : nat -> nat -> A)
  (i j : nat) :
  (i < n)%nat -> (j < m)%nat -> Np.entry d (Np.tabulate n m f) i j = f i j.
Proof.
  intros Hi Hj. unfold Np.entry. rewrite tabulate_row by exact Hi.
  rewrite (nth_indep _ d (f i 0%nat))
    by (rewrite length_map, length_seq; exact Hj).
  rewrite (map_nth (fun j => f i j) (seq 0 m) 0%nat j).
  rewrite seq_nth by exact Hj. reflexivity.
Qed.

Lemma tabulate_shape {A} (n m : nat) (f : nat -> nat -> A) :
  has_shape n m (Np.tabulate n m f).
Proof.
  split; [apply tabulate_length|].
  unfold row_length, Np.tabulate. rewrite Forall_map.
  apply Forall_forall. intros i _. rewrite length_map, length_seq.
  reflexivity.
Qed.

Lemma has_shape_row {A} (n m : nat) (X : list (list A)) (i : nat) :
  has_shape n m X -> (i < n)%nat -> length (nth i X []) = m.
Proof.
  intros [Hn Hm] Hi. unfold row_length in Hm. rewrite Forall_forall in Hm.
  apply Hm. apply nth_In. lia.
Qed.

Lemma has_shape_shape1 {A} (n m : nat) (X : list (list A)) :
  has_shape n m X -> (0 < n)%nat -> Np.shape1 X = m.
Proof.
  intros HX Hn. unfold Np.shape1.
  destruct X as [|row X]; [destruct HX as [HX _]; simpl in HX; lia|].
  destruct HX as [_ HX]. apply Forall_inv in HX. exact HX.
Qed.

(** Two arrays of one shape with the same entries are the same array. *)
Lemma matrix_ext {A} (d : A) (n m : nat) (X Y : list (list A)) :
  has_shape n m X -> has_shape n m Y ->
  (forall i j, (i < n)%nat -> (j < m)%nat ->
     Np.entry d X i j = Np.entry d Y i j) ->
  X = Y.
Proof.
  intros HX HY Hent.
  apply (nth_ext X Y [] []).
  - destruct HX as [-> _], HY as [-> _]. reflexivity.
  - intros i Hi. destruct HX as [Hn HXm]. rewrite Hn in Hi.
    apply (nth_ext _ _ d d).
    + rewrite (has_shape_row n m X i), (has_shape_row n m Y i);
        [reflexivity|exact HY|exact Hi|split; assumption|exact Hi].
    + intros j Hj.
      rewrite (has_shape_row n m X i) in Hj;
        [|split; assumption|exact Hi].
      apply Hent; assumption.
Qed.

Lemma zip_with_length {A B C} (f : A -> B -> C) (l : list A) (l' : list B) :
  length (Np.zip_with f l l') = Nat.min (length l) (length l').
Proof.
  revert l'. induction l as [|a l IH]; intros [|b l']; simpl;
    try reflexivity.
  rewrite IH. reflexivity.
Qed.

Lemma zip_with_nth {A B C} (f : A -> B -> C) (da : A) (db : B) (dc : C)
  (l : list A) (l' : list B) (i : nat) :
  (i < length l)%nat -> (i < length l')%nat ->
  nth i (Np.zip_with f l l') dc = f (nth i l da) (nth i l' db).
Proof.
  revert l' i. induction l as [|a l IH]; intros [|b l'] [|i] Hl Hl';
    simpl in *; try lia; try reflexivity.
  apply IH; lia.
Qed.

Lemma mzip_with_shape {A B C} (f : A -> B -> C) (n m : nat)
  (X : list (list A)) (Y : list (list B)) :
  has_shape n m X -> has_shape n m Y ->
  has_shape n m (Np.mzip_with f X Y).
Proof.
  intros [HXn HXm] [HYn HYm]. unfold Np.mzip_with. split.
  - rewrite zip_with_length. lia.
  - unfold row_length in *. clear HXn HYn. revert Y HYm.
    induction HXm as [|r X Hr _ IH]; intros Y HYm; simpl; [constructor|].
    destruct HYm as [|r' Y Hr' HYm]; simpl; constructor.
    + rewrite zip_with_length. lia.
    + apply IH. exact HYm.
Qed.

Lemma mzip_with_entry {A B C} (f : A -> B -> C) (da : A) (db : B) (dc : C)
  (n m : nat) (X : list (list A)) (Y : list (list B)) (i j : nat) :
  has_shape n m X -> has_shape n m Y -> (i < n)%nat -> (j < m)%nat ->
  Np.entry dc (Np.mzip_with f X Y) i j
  = f (Np.entry da X i j) (Np.entry db Y i j).
Proof.
  intros HX HY Hi Hj. unfold Np.entry, Np.mzip_with.
  rewrite (zip_with_nth (Np.zip_with f) [] [] [] X Y i)
    by (destruct HX as [HXn _], HY as [HYn _]; lia).
  apply zip_with_nth.
  - rewrite (has_shape_row n m X i HX Hi). exact Hj.
  - rewrite (has_shape_row n m Y i HY Hi). exact Hj.
Qed.

Lemma mmap_shape {A B} (f : A -> B) (n m : nat) (X : list (list A)) :
  has_shape n m X -> has_shape n m (Np.mmap f X).
Proof.
  intros [Hn Hm]. unfold Np.mmap. split.
  - rewrite length_map. exact Hn.
  - unfold row_length in *. rewrite Forall_map.
    eapply Forall_impl; [|exact Hm]. simpl. intros r Hr.
    rewrite length_map. exact Hr.
Qed.

Lemma mmap_entry {A B} (f : A -> B) (da : A) (db : B) (n m : nat)
  (X : list (list A)) (i j : nat) :
  has_shape n m X -> (i < n)%nat -> (j < m)%nat ->
  Np.entry db (Np.mmap f X) i j = f (Np.entry da X i j).
Proof.
  intros HX Hi Hj. unfold Np.entry, Np.mmap.
  rewrite (nth_indep _ [] (map f []))
    by (rewrite length_map; destruct HX as [HXn _]; lia).
  rewrite (map_nth (map f) X [] i).
  rewrite (nth_indep _ db (f da))
    by (rewrite length_map, (has_shape_row n m X i HX Hi); exact Hj).
  apply map_nth.
Qed.

Lemma eye_shape (n : nat) (k : Z) : has_shape n n (Np.eye n k).
Proof. apply tabulate_shape. Qed.

Lemma eye_entry (n : nat) (k : Z) (i j : nat) :
  (i < n)%nat -> (j < n)%nat ->
  Np.entry 0 (Np.eye n k) i j
  = if (Z.of_nat j =? Z.of_nat i + k)%Z then 1 else 0.
Proof. intros Hi Hj. unfold Np.eye. apply tabulate_entry; assumption. Qed.

Lemma transpose_of_shape {A} (d : A) (n m : nat) (X : list (list A)) :
  has_shape n m X -> (0 < n)%nat ->
  has_shape m n (Np.transpose_of d X).
Proof.
  intros HX Hn. unfold Np.transpose_of.
  rewrite (has_shape_shape1 n m X HX Hn).
  destruct HX as [<- _]. apply tabulate_shape.
Qed.

Lemma transpose_of_entry {A} (d : A) (n m : nat) (X : list (list A))
  (i j : nat) :
  has_shape n m X -> (i < m)%nat -> (j < n)%nat ->
  Np.entry d (Np.transpose_of d X) i j = Np.entry d X j i.
Proof.
  intros HX Hi Hj. unfold Np.transpose_of.
  rewrite (has_shape_shape1 n m X HX) by lia.
  destruct HX as [<- _]. unfold Np.shape0.
  rewrite (tabulate_entry d m (length X) (fun i j => Np.entry d X j i))
    by assumption.
  reflexivity.
Qed.

(** ** [np.argsort] *)

Lemma insert_by_perm (key : nat -> R) (i : nat) (l : list nat) :
  Permutation (Np.insert_by key i l) (i :: l).
Proof.
  induction l as [|j l IH]; simpl; [reflexivity|].
  destruct (Rle_dec (key i) (key j)); [reflexivity|].
  rewrite IH. apply perm_swap.
Qed.

Lemma insert_by_sorted (key : nat -> R) (i : nat) (l : list nat) :
  StronglySorted (fun a b => key a <= key b) l ->
  StronglySorted (fun a b => key a <= key b) (Np.insert_by key i l).
Proof.
  induction l as [|j l IH]; simpl; intros Hs.
  - repeat constructor.
  - apply StronglySorted_inv in Hs as [Hl Hj].
    destruct (Rle_dec (key i) (key j)) as [Hle|Hgt].
    + constructor; [constructor; assumption|].
      constructor; [exact Hle|].
      eapply Forall_impl; [|exact Hj]. simpl. intros; lra.
    + constructor; [auto|].
      apply Forall_forall. intros a Ha.
      apply (Permutation_in _ (insert_by_perm key i l)) in Ha.
      destruct Ha as [<-|Ha]; [lra|].
      rewrite Forall_forall in Hj. auto.
Qed.

Lemma argsort_perm (v : vector) :
  Permutation (Np.argsort v) (seq 0 (length v)).
Proof.
  unfold Np.argsort. generalize (seq 0 (length v)) as l.
  induction l as [|i l IH]; simpl; [reflexivity|].
  rewrite insert_by_perm. apply perm_skip. exact IH.
Qed.

Lemma argsort_sorted (v : vector) :
  StronglySorted (fun i j => nth i v 0 <= nth j v 0) (Np.argsort v).
Proof.
  unfold Np.argsort. generalize (seq 0 (length v)) as l.
  induction l as [|i l IH]; simpl; [constructor|].
  apply insert_by_sorted. exact IH.
Qed.

Lemma argsort_length (v : vector) : length (Np.argsort v) = length v.
Proof.
  rewrite (Permutation_length (argsort_perm v)). apply length_seq.
Qed.

(** ** [laplacian_eigenvectors] *)

Lemma nth_map_in {A B} (f : A -> B) (l : list A) (da : A) (db : B)
  (i : nat) :
  (i < length l)%nat -> nth i (map f l) db = f (nth i l da).
Proof.
  intros Hi. rewrite (nth_indep _ db (f da)) by (rewrite length_map; exact Hi).
  apply map_nth.
Qed.

Lemma nth_tl {A} (l : list A) (d : A) (i : nat) :
  nth i (tl l) d = nth (S i) l d.
Proof. destruct l as [|a l]; [destruct i; reflexivity|reflexivity]. Qed.

Lemma In_firstn {A} (n : nat) (l : list A) (x : A) :
  In x (firstn n l) -> In x l.
Proof.
  revert l. induction n as [|n IH]; intros [|a l]; simpl; try tauto.
  intros [->|Hx]; [left; reflexivity|right; apply IH; exact Hx].
Qed.

Lemma In_tl {A} (l : list A) (x : A) : In x (tl l) -> In x l.
Proof. destruct l; simpl; tauto. Qed.

(** The three branches on [k] trim or pad every row to [k] entries. *)
Lemma trim_or_pad_rows (k m : nat) (rows : list (list complex)) :
  row_length m rows ->
  map (firstn k)
    (if (k <? m)%nat then map (firstn k) rows
     else if (m <? k)%nat
          then map (fun row => row ++ repeat czero (k - m)) rows
          else rows)
  = map (fun row => firstn k (row ++ repeat czero (k - m))) rows.
Proof.
  intros Hrows.
  destruct (Nat.ltb_spec k m) as [Hlt|Hge].
  - rewrite map_map. apply map_ext. intros row.
    replace (k - m)%nat with 0%nat by lia. simpl.
    rewrite app_nil_r, firstn_firstn, Nat.min_id. reflexivity.
  - destruct (Nat.ltb_spec m k) as [Hlt|Hge'].
    + rewrite map_map. reflexivity.
    + apply map_ext. intros row.
      replace (k - m)%nat with 0%nat by lia. simpl.
      rewrite app_nil_r. reflexivity.
Qed.

Lemma laplacian_eigenvectors_rows (E : Collaborators) (L : matrix) (k : nat) :
  (1 <= length L)%nat ->
  length (fst (eig E L)) = length L ->
  has_shape (length L) (length L) (snd (eig E L)) ->
  laplacian_eigenvectors E L k
  = Np.transpose_of czero
      (map (fun row =>
              firstn k
                (tl (map (fun j => nth j row czero)
                       (Np.argsort (map fst (fst (eig E L)))))
                 ++ repeat czero (k - (length L - 1))))
         (snd (eig E L))).
Proof.
  intros HN Hvals Hvecs. unfold laplacian_eigenvectors.
  destruct (eig E L) as [e_vals e_vecs]. simpl in *.
  set (idx := Np.argsort (map fst e_vals)).
  assert (length idx = length L) as Hidx.
  { unfold idx. rewrite argsort_length, length_map. exact Hvals. }
  set (rows := map (@tl complex)
                 (map (fun row => map (fun j => nth j row czero) idx) e_vecs)).
  assert (row_length (length L - 1) rows) as Hrows.
  { unfold rows, row_length. rewrite !Forall_map.
    apply Forall_forall. intros row _.
    rewrite length_tl, length_map, Hidx. reflexivity. }
  assert (Np.shape1 rows = (length L - 1)%nat) as Hshape1.
  { apply (has_shape_shape1 (length L)); [|lia].
    split; [|exact Hrows].
    unfold rows. rewrite !length_map. apply Hvecs. }
  rewrite length_tl, length_map, Hidx, Hshape1.
  rewrite (trim_or_pad_rows k (length L - 1) rows Hrows).
  unfold rows. rewrite !map_map. reflexivity.
Qed.

(** C5: for an [N]-by-[N] Laplacian with [N >= 2] whose eigen-solver
    returns [N] eigenvalues and an [N]-by-[N] array of eigenvectors,
    [laplacian_eigenvectors] returns exactly [k] rows of length [N]: the
    eigenvectors in ascending order of the real parts of their
    eigenvalues, the first one dropped, cut after the first [k] of them
    and followed by [k - (N - 1)] all-zero rows when fewer than [k]
    remain. *)
Theorem laplacian_eigenvectors_pad_truncate (E : Collaborators) (L : matrix)
  (k : nat) :
  (2 <= length L)%nat ->
  has_shape (length L) (length L) L ->
  length (fst (eig E L)) = length L ->
  has_shape (length L) (length L) (snd (eig E L)) ->
  has_shape k (length L) (laplacian_eigenvectors E L k)
  /\ laplacian_eigenvectors E L k
     = firstn k (tl (sorted_eigenvectors E L))
       ++ repeat (repeat czero (length L)) (k - (length L - 1))
  /\ Permutation (Np.argsort (map fst (fst (eig E L)))) (seq 0 (length L))
  /\ StronglySorted
       (fun i j =>
          nth i (map fst (fst (eig E L))) 0
          <= nth j (map fst (fst (eig E L))) 0)
       (Np.argsort (map fst (fst (eig E L)))).
Proof.
  intros HN _ Hvals Hvecs.
  set (N := length L) in *.
  set (idx := Np.argsort (map fst (fst (eig E L)))).
  assert (length idx = N) as Hidx.
  { unfold idx. rewrite argsort_length, length_map. exact Hvals. }
  set (rows := map (fun row =>
                      firstn k
                        (tl (map (fun j => nth j row czero) idx)
                         ++ repeat czero (k - (N - 1))))
                 (snd (eig E L))).
  assert (has_shape N k rows) as Hrows.
  { split.
    - unfold rows. rewrite length_map. apply Hvecs.
    - unfold rows, row_length. rewrite Forall_map.
      apply Forall_forall. intros row _.
      rewrite length_firstn, length_app, length_tl, length_map,
        repeat_length, Hidx. lia. }
  assert (has_shape k N
            (firstn k (tl (sorted_eigenvectors E L))
             ++ repeat (repeat czero N) (k - (N - 1)))) as Hspec.
  { unfold sorted_eigenvectors. fold idx. split.
    - rewrite length_app, length_firstn, length_tl, length_map,
        repeat_length, Hidx. lia.
    - unfold row_length. apply Forall_app. split.
      + apply Forall_forall. intros v Hv.
        apply In_firstn, In_tl, in_map_iff in Hv as (j & <- & _).
        unfold eigenvector. rewrite length_map. apply Hvecs.
      + apply Forall_forall. intros v Hv.
        apply repeat_spec in Hv. subst v. apply repeat_length. }
  assert (laplacian_eigenvectors E L k = Np.transpose_of czero rows) as Hcode.
  { apply laplacian_eigenvectors_rows; [fold N; lia|exact Hvals|exact Hvecs]. }
  assert (has_shape k N (Np.transpose_of czero rows)) as Hshape.
  { apply transpose_of_shape; [exact Hrows|lia]. }
  split; [rewrite Hcode; exact Hshape|].
  split; [|split; [|apply argsort_sorted]];
    [|pose proof (argsort_perm (map fst (fst (eig E L)))) as Hp;
      rewrite length_map in Hp; rewrite <- Hvals; exact Hp].
  rewrite Hcode.
  apply (matrix_ext czero k N); [exact Hshape|exact Hspec|].
  intros i j Hi Hj.
  rewrite (transpose_of_entry czero N k rows i j Hrows Hi Hj).
  unfold Np.entry, rows.
  rewrite (nth_map_in _ (snd (eig E L)) [] [] j)
    by (destruct Hvecs as [-> _]; exact Hj).
  rewrite nth_firstn.
  destruct (Nat.ltb_spec i k) as [_|Hge]; [|lia].
  unfold sorted_eigenvectors. fold idx.
  destruct (Nat.lt_ge_cases i (N - 1)) as [Hlt|Hge].
  - rewrite app_nth1
      by (rewrite length_tl, length_map, Hidx; exact Hlt).
    rewrite nth_tl.
    rewrite (nth_map_in _ idx 0%nat czero (S i)) by lia.
    rewrite app_nth1
      by (rewrite length_firstn, length_tl, length_map, Hidx; lia).
    rewrite nth_firstn.
    destruct (Nat.ltb_spec i k) as [_|Hge]; [|lia].
    rewrite nth_tl.
    rewrite (nth_map_in _ idx 0%nat [] (S i)) by lia.
    unfold eigenvector.
    rewrite (nth_map_in _ (snd (eig E L)) [] czero j)
      by (destruct Hvecs as [-> _]; exact Hj).
    reflexivity.
  - rewrite app_nth2
      by (rewrite length_tl, length_map, Hidx; lia).
    rewrite nth_repeat.
    rewrite app_nth2
      by (rewrite length_firstn, length_tl, length_map, Hidx; lia).
    rewrite (nth_repeat_lt (repeat czero N) [])
      by (rewrite length_firstn, length_tl, length_map, Hidx; lia).
    rewrite nth_repeat. reflexivity.
Qed.

Lemma laplacian_eigenvectors_pad_truncate_witness :
  has_shape 3 2 (laplacian_eigenvectors Toy.collaborators Toy.L2 3)
  /\ laplacian_eigenvectors Toy.collaborators Toy.L2 3
     = firstn 3 (tl (sorted_eigenvectors Toy.collaborators Toy.L2))
       ++ repeat (repeat czero 2) 2.
Proof.
  destruct (laplacian_eigenvectors_pad_truncate Toy.collaborators Toy.L2 3)
    as (Hshape & Hrows & _).
  - simpl. lia.
  - repeat constructor.
  - reflexivity.
  - apply tabulate_shape.
  - split; [exact Hshape|exact Hrows].
Defined.

(** ** The affinity matrix *)

Lemma sum_nonneg (v : vector) : Forall (fun x => 0 <= x) v -> 0 <= Np.sum v.
Proof.
  induction 1 as [|x v Hx _ IH]; simpl; lra.
Qed.

Lemma sum_ge_nth (v : vector) (i : nat) :
  Forall (fun x => 0 <= x) v -> nth i v 0 <= Np.sum v.
Proof.
  intros Hv. revert i. induction Hv as [|x v Hx Hv IH]; intros [|i]; simpl;
    try lra.
  - pose proof (sum_nonneg v Hv). unfold Np.sum in *. lra.
  - specialize (IH i). unfold Np.sum in *. lra.
Qed.

Lemma sqeuclidean_nonneg (x y : vector) : 0 <= Np.sqeuclidean x y.
Proof.
  unfold Np.sqeuclidean. apply sum_nonneg.
  revert y. induction x as [|a x IH]; intros [|b y]; simpl; constructor.
  - apply pow2_ge_0.
  - apply IH.
Qed.

Lemma sqeuclidean_sym (x y : vector) :
  Np.sqeuclidean x y = Np.sqeuclidean y x.
Proof.
  unfold Np.sqeuclidean. f_equal.
  revert y. induction x as [|a x IH]; intros [|b y]; simpl; try reflexivity.
  rewrite IH. f_equal. ring.
Qed.

Lemma sqeuclidean_self (x : vector) : Np.sqeuclidean x x = 0.
Proof.
  unfold Np.sqeuclidean. induction x as [|a x IH]; [reflexivity|].
  change ((a - a) ^ 2 + Np.sum (Np.zip_with (fun a b => (a - b) ^ 2) x x)
          = 0).
  rewrite IH. ring.
Qed.

(** The squared distance matrix [D] of [label_build_affinity]. *)
Lemma sqdist_shape (X : matrix) :
  has_shape (length X) (length X)
    (Np.mmap (fun x => x ^ 2) (Np.cdist X X)).
Proof.
  apply mmap_shape. unfold Np.cdist. split.
  - apply length_map.
  - unfold row_length. rewrite Forall_map. apply Forall_forall.
    intros x _. apply length_map.
Qed.

Lemma sqdist_entry (X : matrix) (i j : nat) :
  (i < length X)%nat -> (j < length X)%nat ->
  Np.entry 0 (Np.mmap (fun x => x ^ 2) (Np.cdist X X)) i j
  = Np.sqeuclidean (nth i X []) (nth j X []).
Proof.
  intros Hi Hj.
  rewrite (mmap_entry (fun x => x ^ 2) 0 0 (length X) (length X)); try assumption.
  - unfold Np.entry, Np.cdist.
    rewrite (nth_map_in _ X [] [] i) by exact Hi.
    rewrite (nth_map_in _ X [] 0 j) by exact Hj.
    apply pow2_sqrt. apply sqeuclidean_nonneg.
  - unfold Np.cdist. split.
    + apply length_map.
    + unfold row_length. rewrite Forall_map. apply Forall_forall.
      intros x _. apply length_map.
Qed.

Lemma insert_length (x : R) (l : vector) :
  length (Np.insert x l) = S (length l).
Proof.
  induction l as [|y l IH]; simpl; [reflexivity|].
  destruct (Rle_dec x y); simpl; [reflexivity|]. rewrite IH. reflexivity.
Qed.

Lemma sort_length (v : vector) : length (Np.sort v) = length v.
Proof.
  induction v as [|x v IH]; simpl; [reflexivity|].
  rewrite insert_length, IH. reflexivity.
Qed.

(** [np.sort(D, axis=1)[:, 1]] raises exactly when there are fewer than
    two points. *)
Lemma nearest_neighbour_column (X : matrix) :
  (2 <= length X)%nat ->
  exists Dsort,
    Np.column (map Np.sort (Np.mmap (fun x => x ^ 2) (Np.cdist X X))) 1
    = Some Dsort.
Proof.
  intros Hn. unfold Np.column.
  assert (Np.shape1 (map Np.sort (Np.mmap (fun x => x ^ 2) (Np.cdist X X)))
          = length X) as ->.
  { apply (has_shape_shape1 (length X)); [|lia].
    destruct (sqdist_shape X) as [Hl Hr]. split.
    - rewrite length_map. exact Hl.
    - unfold row_length in *. rewrite Forall_map.
      eapply Forall_impl; [|exact Hr]. simpl. intros row Hrow.
      rewrite sort_length. exact Hrow. }
  destruct (Nat.ltb_spec 1 (length X)) as [_|Hle]; [|lia].
  eexists. reflexivity.
Qed.

Lemma few_points_raise (E : Collaborators) (X : matrix) (k : Z)
  (local : bool) :
  (length X < 2)%nat -> label_build_affinity E X k local = None.
Proof.
  intros Hn. unfold label_build_affinity, Np.column.
  assert (le
            (Np.shape1 (map Np.sort
                          (Np.mmap (fun x => x ^ 2) (Np.cdist X X))))
            (length X)) as Hle.
  { unfold Np.shape1, Np.mmap, Np.cdist.
    destruct X as [|x X]; [simpl; lia|].
    cbn [map hd]. rewrite sort_length. cbn [length].
    rewrite !length_map. apply le_n. }
  destruct (Nat.ltb_spec 1
              (Np.shape1 (map Np.sort
                            (Np.mmap (fun x => x ^ 2) (Np.cdist X X)))))
    as [Hlt|_]; [lia|reflexivity].
Qed.

(** The entries of the affinity matrix on the default path. *)
Lemma label_build_affinity_entries (E : Collaborators) (X : matrix) (k : Z) :
  (2 <= length X)%nat ->
  has_shape (length X) (length X)
    (recurrence_matrix E (Np.transpose X)
       (Z.min k (Z.of_nat (length X) - 1)) 1 "sqeuclidean" true) ->
  exists (sigma : R) (A : matrix),
    label_build_affinity E X k false = Some A
    /\ has_shape (length X) (length X) A
    /\ forall i j, (i < length X)%nat -> (j < length X)%nat ->
         Np.entry 0 A i j
         = exp (- (1 / 2) * (Np.sqeuclidean (nth i X []) (nth j X []) / sigma))
           * (Np.of_bool
                (Np.entry false
                   (recurrence_matrix E (Np.transpose X)
                      (Z.min k (Z.of_nat (length X) - 1)) 1 "sqeuclidean"
                      true) i j)
              + (if (Z.of_nat j =? Z.of_nat i + 0)%Z then 1 else 0)).
Proof.
  intros Hn HK. unfold label_build_affinity.
  destruct (nearest_neighbour_column X Hn) as [Dsort ->].
  cbn [Py.bind].
  set (sigma := Np.median (map (fun x => Rmax x SIGMA_MIN) Dsort)).
  set (D := Np.mmap (fun x => x ^ 2) (Np.cdist X X)).
  set (K := recurrence_matrix E (Np.transpose X)
              (Z.min k (Z.of_nat (length X) - 1)) 1 "sqeuclidean" true)
    in *.
  pose proof (sqdist_shape X) as HD. fold D in HD.
  assert (has_shape (length X) (length X)
            (Np.mmap (fun d => exp (- (1 / 2) * (d / sigma))) D)) as HA0
    by (apply mmap_shape; exact HD).
  assert (has_shape (length X) (length X)
            (Np.mzip_with Rplus (Np.mmap Np.of_bool K)
               (Np.eye (length X) 0))) as HK1.
  { apply mzip_with_shape; [apply mmap_shape; exact HK|apply eye_shape]. }
  exists sigma. eexists. split; [reflexivity|]. split.
  - apply mzip_with_shape; assumption.
  - intros i j Hi Hj.
    rewrite (mzip_with_entry Rmult 0 0 0 (length X) (length X)) by assumption.
    rewrite (mmap_entry _ 0 0 (length X) (length X)) by assumption.
    rewrite (mzip_with_entry Rplus 0 0 0 (length X) (length X));
      [|apply mmap_shape; exact HK|apply eye_shape|exact Hi|exact Hj].
    rewrite (mmap_entry Np.of_bool false 0 (length X) (length X))
      by assumption.
    rewrite eye_entry by assumption.
    unfold D. rewrite sqdist_entry by assumption. reflexivity.
Qed.

Lemma entries_Forall {A} (P : A -> Prop) (d : A) (n m : nat)
  (X : list (list A)) :
  has_shape n m X ->
  (forall i j, (i < n)%nat -> (j < m)%nat -> P (Np.entry d X i j)) ->
  Forall (Forall P) X.
Proof.
  intros HX Hent. apply Forall_nth. intros i dr Hi.
  destruct HX as [Hn Hm].
  assert (length (nth i X dr) = m) as Hrow.
  { unfold row_length in Hm. rewrite Forall_forall in Hm. apply Hm.
    apply nth_In. exact Hi. }
  apply Forall_nth. intros j da Hj.
  rewrite (nth_indep X dr [] Hi) in *.
  rewrite (nth_indep _ da d Hj).
  apply Hent; lia.
Qed.

Lemma of_bool_nonneg (b : bool) : 0 <= Np.of_bool b.
Proof. destruct b; simpl; lra. Qed.

Lemma symmetric_entries {A} (d : A) (n : nat) (K : list (list A))
  (i j : nat) :
  has_shape n n K -> Np.transpose_of d K = K ->
  (i < n)%nat -> (j < n)%nat -> Np.entry d K i j = Np.entry d K j i.
Proof.
  intros HK Hsym Hi Hj. rewrite <- Hsym at 1.
  apply (transpose_of_entry d n n); assumption.
Qed.

(** C8: for at least two points, and a nearest-neighbour graph returned
    as a symmetric [n]-by-[n] boolean array (what [sym=True] asks of the
    collaborator), the affinity matrix of the default path is [n]-by-[n],
    equal to its transpose, and non-negative in every entry. *)
Theorem label_build_affinity_symmetric_nonneg (E : Collaborators)
  (X : matrix) (k : Z) :
  (2 <= length X)%nat ->
  has_shape (length X) (length X)
    (recurrence_matrix E (Np.transpose X)
       (Z.min k (Z.of_nat (length X) - 1)) 1 "sqeuclidean" true) ->
  Np.transpose_of false
    (recurrence_matrix E (Np.transpose X)
       (Z.min k (Z.of_nat (length X) - 1)) 1 "sqeuclidean" true)
  = recurrence_matrix E (Np.transpose X)
      (Z.min k (Z.of_nat (length X) - 1)) 1 "sqeuclidean" true ->
  exists A,
    label_build_affinity E X k false = Some A
    /\ has_shape (length X) (length X) A
    /\ Np.transpose A = A
    /\ Forall (Forall (fun a => 0 <= a)) A.
Proof.
  intros Hn HK Hsym.
  destruct (label_build_affinity_entries E X k Hn HK)
    as (sigma & A & HA & Hshape & Hent).
  exists A. split; [exact HA|]. split; [exact Hshape|]. split.
  - apply (matrix_ext 0 (length X) (length X));
      [apply transpose_of_shape; [exact Hshape|lia]|exact Hshape|].
    intros i j Hi Hj. unfold Np.transpose.
    rewrite (transpose_of_entry 0 (length X) (length X)) by assumption.
    rewrite !Hent by assumption.
    rewrite (sqeuclidean_sym (nth j X []) (nth i X [])).
    rewrite (symmetric_entries false (length X) _ j i HK Hsym Hj Hi).
    f_equal. f_equal.
    destruct (Z.eqb_spec (Z.of_nat i) (Z.of_nat j + 0)),
      (Z.eqb_spec (Z.of_nat j) (Z.of_nat i + 0)); try reflexivity; lia.
  - apply (entries_Forall _ 0 (length X) (length X)); [exact Hshape|].
    intros i j Hi Hj. rewrite Hent by assumption.
    apply Rmult_le_pos; [left; apply exp_pos|].
    pose proof (of_bool_nonneg
                  (Np.entry false
                     (recurrence_matrix E (Np.transpose X)
                        (Z.min k (Z.of_nat (length X) - 1)) 1 "sqeuclidean"
                        true) i j)).
    destruct (Z.of_nat j =? Z.of_nat i + 0)%Z; lra.
Qed.

Lemma label_build_affinity_symmetric_nonneg_witness :
  exists A,
    label_build_affinity Toy.collaborators Toy.P3 LABEL_K false = Some A
    /\ has_shape 3 3 A
    /\ Np.transpose A = A
    /\ Forall (Forall (fun a => 0 <= a)) A.
Proof.
  apply (label_build_affinity_symmetric_nonneg Toy.collaborators Toy.P3
           LABEL_K).
  - simpl. lia.
  - split; [reflexivity|repeat constructor].
  - reflexivity.
Defined.

(** ** Row sums handed to [rw_laplacian] *)

(** A row sum of a non-negative array is at least any entry of the row. *)
Lemma row_sums_lower_bound (c : R) (n m : nat) (A : matrix) :
  has_shape n m A ->
  (forall i j, (i < n)%nat -> (j < m)%nat -> 0 <= Np.entry 0 A i j) ->
  (forall i, (i < n)%nat ->
     exists j, (j < m)%nat /\ c <= Np.entry 0 A i j) ->
  Forall (fun s => c <= s) (Np.sum_axis1 A).
Proof.
  intros HA Hpos Hc. unfold Np.sum_axis1.
  apply Forall_nth. intros i d Hi. rewrite length_map in Hi.
  rewrite (nth_map_in Np.sum A [] d i Hi).
  assert (i < n)%nat as Hin
    by (destruct HA as [HAn _]; rewrite <- HAn; exact Hi).
  destruct (Hc i Hin) as (j & Hj & Hcj).
  apply Rle_trans with (1 := Hcj). unfold Np.entry.
  apply sum_ge_nth.
  apply Forall_nth. intros j' d' Hj'.
  rewrite (nth_indep _ d' 0 Hj').
  apply (Hpos i j' Hin).
  rewrite <- (has_shape_row n m A i HA Hin). exact Hj'.
Qed.

Lemma Forall_Forall_entry {A} (P : A -> Prop) (d : A) (n m : nat)
  (X : list (list A)) (i j : nat) :
  has_shape n m X -> Forall (Forall P) X -> (i < n)%nat -> (j < m)%nat ->
  P (Np.entry d X i j).
Proof.
  intros HX HP Hi Hj. unfold Np.entry.
  assert (In (nth i X []) X) as Hrow
    by (apply nth_In; destruct HX as [HXn _]; lia).
  rewrite Forall_forall in HP. specialize (HP _ Hrow).
  rewrite Forall_forall in HP. apply HP. apply nth_In.
  rewrite (has_shape_row n m X i HX Hi). exact Hj.
Qed.

(** The entries of the graph [M] of [repetition]. *)
Lemma repetition_graph_entries (E : Collaborators) (X : matrix)
  (metric : string) (N : nat) (i j : nat) :
  has_shape N N (repetition_filtered E X metric) ->
  (i < N)%nat -> (j < N)%nat ->
  has_shape N N (repetition_graph E X metric)
  /\ Np.entry 0 (repetition_graph E X metric) i j
     = Rmax (Np.entry 0 (repetition_filtered E X metric) i j)
         (Np.entry 0 (repetition_filtered E X metric) j i)
       + (if (Z.of_nat j =? Z.of_nat i + 1)%Z then 1 else 0)
       + (if (Z.of_nat j =? Z.of_nat i + -1)%Z then 1 else 0).
Proof.
  intros HRf Hi Hj. unfold repetition_graph.
  set (Rf := repetition_filtered E X metric) in *.
  assert (has_shape N N (Np.transpose Rf)) as HT
    by (apply transpose_of_shape; [exact HRf|lia]).
  assert (has_shape N N (Np.mzip_with Rmax Rf (Np.transpose Rf))) as Hmax
    by (apply mzip_with_shape; assumption).
  assert (Np.shape0 (Np.mzip_with Rmax Rf (Np.transpose Rf)) = N) as ->
    by (apply Hmax).
  assert (has_shape N N
            (Np.mzip_with Rplus (Np.mzip_with Rmax Rf (Np.transpose Rf))
               (Np.eye N 1))) as Hplus
    by (apply mzip_with_shape; [exact Hmax|apply eye_shape]).
  split.
  - apply mzip_with_shape; [exact Hplus|apply eye_shape].
  - rewrite (mzip_with_entry Rplus 0 0 0 N N);
      [|exact Hplus|apply eye_shape|exact Hi|exact Hj].
    rewrite (mzip_with_entry Rplus 0 0 0 N N);
      [|exact Hmax|apply eye_shape|exact Hi|exact Hj].
    rewrite (mzip_with_entry Rmax 0 0 0 N N) by assumption.
    rewrite !eye_entry by assumption.
    unfold Np.transpose.
    rewrite (transpose_of_entry 0 N N Rf i j HRf Hi Hj). reflexivity.
Qed.

(** C10: on the matrices the program hands to [rw_laplacian] every row
    sum is at least 1, so its inversion never divides by zero.  The
    affinity matrix of at least two points has every diagonal entry at
    least 1 (the self-loop times [exp 0]); the graph of [repetition] over
    [N >= 2] frames, whose filtered recurrence matrix is [N]-by-[N] and
    non-negative, has a chain edge of weight at least 1 in every row. *)
Theorem rw_laplacian_row_sums_positive (E : Collaborators) (P : matrix)
  (k : Z) (X : matrix) (metric : string) :
  (2 <= length P)%nat ->
  has_shape (length P) (length P)
    (recurrence_matrix E (Np.transpose P)
       (Z.min k (Z.of_nat (length P) - 1)) 1 "sqeuclidean" true) ->
  (2 <= length (repetition_filtered E X metric))%nat ->
  has_shape (length (repetition_filtered E X metric))
    (length (repetition_filtered E X metric))
    (repetition_filtered E X metric) ->
  Forall (Forall (fun a => 0 <= a)) (repetition_filtered E X metric) ->
  (exists A,
      label_build_affinity E P k false = Some A
      /\ (forall i, (i < length P)%nat -> 1 <= Np.entry 0 A i i)
      /\ Forall (fun s => 1 <= s /\ 0 < s /\ / s * s = 1) (Np.sum_axis1 A))
  /\ Forall (fun s => 1 <= s /\ 0 < s /\ / s * s = 1)
       (Np.sum_axis1 (repetition_graph E X metric)).
Proof.
  intros HP HK HN HRf Hpos.
  assert (forall v, Forall (fun s => 1 <= s) v ->
                    Forall (fun s => 1 <= s /\ 0 < s /\ / s * s = 1) v)
    as Hinv.
  { intros v Hv. eapply Forall_impl; [|exact Hv]. simpl. intros s Hs.
    split; [exact Hs|]. split; [lra|]. apply Rinv_l. lra. }
  split.
  - destruct (label_build_affinity_entries E P k HP HK)
      as (sigma & A & HA & Hshape & Hent).
    assert (forall i j, (i < length P)%nat -> (j < length P)%nat ->
                        0 <= Np.entry 0 A i j) as HApos.
    { intros i j Hi Hj. rewrite Hent by assumption.
      apply Rmult_le_pos; [left; apply exp_pos|].
      pose proof (of_bool_nonneg
                    (Np.entry false
                       (recurrence_matrix E (Np.transpose P)
                          (Z.min k (Z.of_nat (length P) - 1)) 1
                          "sqeuclidean" true) i j)).
      destruct (Z.of_nat j =? Z.of_nat i + 0)%Z; lra. }
    assert (forall i, (i < length P)%nat -> 1 <= Np.entry 0 A i i) as Hdiag.
    { intros i Hi. rewrite Hent by assumption.
      rewrite sqeuclidean_self.
      replace (- (1 / 2) * (0 / sigma)) with 0
        by (unfold Rdiv; ring).
      rewrite exp_0.
      pose proof (of_bool_nonneg
                    (Np.entry false
                       (recurrence_matrix E (Np.transpose P)
                          (Z.min k (Z.of_nat (length P) - 1)) 1
                          "sqeuclidean" true) i i)).
      destruct (Z.eqb_spec (Z.of_nat i) (Z.of_nat i + 0)); [lra|lia]. }
    exists A. split; [exact HA|]. split; [exact Hdiag|].
    apply Hinv.
    apply (row_sums_lower_bound 1 (length P) (length P));
      [exact Hshape|exact HApos|].
    intros i Hi. exists i. split; [exact Hi|apply Hdiag; exact Hi].
  - apply Hinv.
    set (N := length (repetition_filtered E X metric)) in *.
    assert (forall i j, (i < N)%nat -> (j < N)%nat ->
              0 <= Rmax (Np.entry 0 (repetition_filtered E X metric) i j)
                     (Np.entry 0 (repetition_filtered E X metric) j i))
      as Hmaxpos.
    { intros i j Hi Hj.
      apply Rle_trans with (2 := Rmax_l _ _).
      apply (Forall_Forall_entry (fun a => 0 <= a) 0 N N); assumption. }
    apply (row_sums_lower_bound 1 N N).
    + apply (repetition_graph_entries E X metric N 0 0 HRf); lia.
    + intros i j Hi Hj.
      destruct (repetition_graph_entries E X metric N i j HRf Hi Hj)
        as [_ ->].
      specialize (Hmaxpos i j Hi Hj).
      destruct (Z.of_nat j =? Z.of_nat i + 1)%Z,
        (Z.of_nat j =? Z.of_nat i + -1)%Z; lra.
    + intros i Hi.
      destruct (Nat.lt_ge_cases (S i) N) as [Hnext|Hlast].
      * exists (S i). split; [exact Hnext|].
        destruct (repetition_graph_entries E X metric N i (S i) HRf Hi Hnext)
          as [_ ->].
        specialize (Hmaxpos i (S i) Hi Hnext).
        destruct (Z.eqb_spec (Z.of_nat (S i)) (Z.of_nat i + 1)); [|lia].
        destruct (Z.of_nat (S i) =? Z.of_nat i + -1)%Z; lra.
      * assert (i - 1 < N)%nat as Hprev by lia.
        exists (i - 1)%nat. split; [exact Hprev|].
        destruct (repetition_graph_entries E X metric N i (i - 1) HRf Hi
                    Hprev) as [_ ->].
        specialize (Hmaxpos i (i - 1)%nat Hi Hprev).
        destruct (Z.eqb_spec (Z.of_nat (i - 1)) (Z.of_nat i + -1)); [|lia].
        destruct (Z.of_nat (i - 1) =? Z.of_nat i + 1)%Z; lra.
Qed.

Lemma toy_filtered_recurrence :
  repetition_filtered Toy.collaborators Toy.X4 "sqeuclidean"
  = [[0; 1; 1; 1]; [1; 0; 1; 1]; [1; 1; 0; 1]; [1; 1; 1; 0]].
Proof. reflexivity. Qed.

Lemma rw_laplacian_row_sums_positive_witness :
  (exists A,
      label_build_affinity Toy.collaborators Toy.P3 LABEL_K false = Some A
      /\ (forall i, (i < 3)%nat -> 1 <= Np.entry 0 A i i)
      /\ Forall (fun s => 1 <= s /\ 0 < s /\ / s * s = 1) (Np.sum_axis1 A))
  /\ Forall (fun s => 1 <= s /\ 0 < s /\ / s * s = 1)
       (Np.sum_axis1
          (repetition_graph Toy.collaborators Toy.X4 "sqeuclidean")).
Proof.
  apply (rw_laplacian_row_sums_positive Toy.collaborators Toy.P3 LABEL_K
           Toy.X4 "sqeuclidean").
  - simpl. lia.
  - split; [reflexivity|repeat constructor].
  - rewrite toy_filtered_recurrence. simpl. lia.
  - rewrite toy_filtered_recurrence. split; [reflexivity|repeat constructor].
  - rewrite toy_filtered_recurrence. repeat constructor; lra.
Defined.

(** ** The cluster count *)

Lemma diff_length (v : vector) : length (Np.diff v) = (length v - 1)%nat.
Proof.
  unfold Np.diff. rewrite zip_with_length, length_tl. lia.
Qed.

Lemma argmax_from_bound (v : vector) :
  forall best_i best i,
    (best_i < i)%nat ->
    (Np.argmax_from best_i best i v < i + length v)%nat.
Proof.
  induction v as [|x v IH]; intros best_i best i Hi; simpl.
  - lia.
  - destruct (Rlt_dec best x).
    + specialize (IH i x (S i)). lia.
    + specialize (IH best_i best (S i)). lia.
Qed.

Lemma argmax_bound (v : vector) (i : nat) :
  Np.argmax v = Some i -> (i < length v)%nat.
Proof.
  destruct v as [|x v]; simpl; [discriminate|].
  intros [= <-]. pose proof (argmax_from_bound v 0 x 1). lia.
Qed.

Lemma rw_laplacian_length (A : matrix) :
  length (rw_laplacian A) = length A.
Proof.
  unfold rw_laplacian, Np.mzip_with, Np.eye, Np.dot, Np.diag, Np.shape0,
    Np.sum_axis1.
  rewrite zip_with_length, !tabulate_length, !length_map.
  apply Nat.min_id.
Qed.

(** With at least two eigenvalues the estimate is defined, and lies
    between 1 and their number less one. *)
Lemma label_estimate_n_components_returns (E : Collaborators) (A : matrix) :
  (2 <= length (fst (eig E (rw_laplacian A))))%nat ->
  exists est gap,
    label_estimate_n_components E A = Some (est, gap)
    /\ (1 <= est <= Z.of_nat (length (fst (eig E (rw_laplacian A)))) - 1)%Z.
Proof.
  intros Hn. unfold label_estimate_n_components.
  set (spectrum := Np.sort (map fst (fst (eig E (rw_laplacian A))))).
  assert (length (Np.diff spectrum)
          = (length (fst (eig E (rw_laplacian A))) - 1)%nat) as Hlen.
  { unfold spectrum. rewrite diff_length, sort_length, length_map.
    reflexivity. }
  destruct (Np.argmax (Np.diff spectrum)) as [i|] eqn:Hi.
  - apply argmax_bound in Hi. rewrite Hlen in Hi.
    destruct (Np.diff spectrum) as [|x gaps] eqn:Hgaps;
      [simpl in Hlen; lia|].
    cbn [Py.bind Np.max]. eexists. eexists. split; [reflexivity|]. lia.
  - destruct (Np.diff spectrum) as [|x gaps]; [simpl in Hlen; lia|].
    discriminate.
Qed.

(** What [label_segments] hands to the clustering object. *)
Lemma label_segments_clusters_value (E : Collaborators) (X A : matrix) :
  label_build_affinity E (Np.transpose X) LABEL_K false = Some A ->
  (2 <= length (fst (eig E (rw_laplacian A))))%nat ->
  exists est gap,
    label_estimate_n_components E A = Some (est, gap)
    /\ (1 <= est <= Z.of_nat (length (fst (eig E (rw_laplacian A)))) - 1)%Z
    /\ label_segments_clusters E X
       = Some (A, Z.min (Z.of_nat (length A) - 1) (Z.max 2 est)).
Proof.
  intros HA Hn.
  destruct (label_estimate_n_components_returns E A Hn)
    as (est & gap & Hest & Hrange).
  exists est, gap. split; [exact Hest|]. split; [exact Hrange|].
  unfold label_segments_clusters. rewrite HA. cbn [Py.bind].
  rewrite Hest. reflexivity.
Qed.

(** C7 (amended): when the affinity matrix [A] is built and the
    eigen-solver returns at least two eigenvalues, the estimate is
    defined and the cluster count handed to the clustering object is
    [min (len A - 1) (max 2 estimate)], without an error; it never exceeds
    [len A - 1], and it lies in [2, len A - 1] when there are at least
    three segments. *)
Theorem label_segments_clamps_cluster_count (E : Collaborators)
  (X A : matrix) :
  label_build_affinity E (Np.transpose X) LABEL_K false = Some A ->
  (2 <= length (fst (eig E (rw_laplacian A))))%nat ->
  exists est gap,
    label_estimate_n_components E A = Some (est, gap)
    /\ label_segments_clusters E X
       = Some (A, Z.min (Z.of_nat (length A) - 1) (Z.max 2 est))
    /\ (Z.min (Z.of_nat (length A) - 1) (Z.max 2 est)
        <= Z.of_nat (length A) - 1)%Z
    /\ ((3 <= length A)%nat ->
        (2 <= Z.min (Z.of_nat (length A) - 1) (Z.max 2 est)
         <= Z.of_nat (length A) - 1)%Z).
Proof.
  intros HA Hn.
  destruct (label_segments_clusters_value E X A HA Hn)
    as (est & gap & Hest & _ & Hclusters).
  exists est, gap. split; [exact Hest|]. split; [exact Hclusters|].
  split; [lia|]. intros H3. lia.
Qed.

(** The stand-in collaborators on [n] segments of one feature. *)
Lemma toy_affinity (X : matrix) (n : nat) :
  length (Np.transpose X) = n -> (2 <= n)%nat ->
  Np.shape1 (Np.transpose (Np.transpose X)) = n ->
  label_build_affinity Toy.collaborators (Np.transpose X) LABEL_K false
  = Some (Toy.affinity_of X)
  /\ length (Toy.affinity_of X) = n
  /\ length (fst (eig Toy.collaborators (rw_laplacian (Toy.affinity_of X))))
     = n.
Proof.
  intros Hlen Hn Hshape.
  destruct (label_build_affinity_entries Toy.collaborators (Np.transpose X)
              LABEL_K) as (sigma & A & HA & HAshape & _).
  - rewrite Hlen. exact Hn.
  - cbn [recurrence_matrix Toy.collaborators]. unfold Toy.recurrence_matrix.
    rewrite Hshape, Hlen. apply tabulate_shape.
  - assert (Toy.affinity_of X = A) as ->.
    { unfold Toy.affinity_of. rewrite HA. reflexivity. }
    split; [exact HA|].
    assert (length A = n) as HAn
      by (destruct HAshape as [HAn _]; rewrite HAn; exact Hlen).
    split; [exact HAn|].
    cbn [eig Toy.collaborators]. unfold Toy.eig. cbn [fst].
    rewrite length_map, length_seq, rw_laplacian_length. exact HAn.
Qed.

Lemma label_segments_clamps_cluster_count_witness :
  exists est gap,
    label_estimate_n_components Toy.collaborators Toy.A3 = Some (est, gap)
    /\ label_segments_clusters Toy.collaborators Toy.X3
       = Some (Toy.A3,
               Z.min (Z.of_nat (length Toy.A3) - 1) (Z.max 2 est))
    /\ (Z.min (Z.of_nat (length Toy.A3) - 1) (Z.max 2 est)
        <= Z.of_nat (length Toy.A3) - 1)%Z
    /\ ((3 <= length Toy.A3)%nat ->
        (2 <= Z.min (Z.of_nat (length Toy.A3) - 1) (Z.max 2 est)
         <= Z.of_nat (length Toy.A3) - 1)%Z).
Proof.
  destruct (toy_affinity Toy.X3 3 eq_refl (le_S _ _ (le_n 2)) eq_refl)
    as (HA & _ & Heig).
  apply (label_segments_clamps_cluster_count Toy.collaborators Toy.X3
           Toy.A3 HA).
  fold Toy.A3 in Heig. rewrite Heig. lia.
Defined.

(** C7 (as the claim states it, refuted): for two segments the count
    handed to the clustering object is 1, below the interval's lower
    end 2 (the interval [2, 1] is empty). *)
Lemma two_segments_get_one_cluster :
  exists A n,
    label_segments_clusters Toy.collaborators Toy.X2 = Some (A, n)
    /\ length A = 2%nat
    /\ n = 1%Z
    /\ ~ (2 <= n <= Z.of_nat (length A) - 1)%Z.
Proof.
  destruct (toy_affinity Toy.X2 2 eq_refl (le_n 2) eq_refl)
    as (HA & Hlen & Heig).
  destruct (label_segments_clusters_value Toy.collaborators Toy.X2
              (Toy.affinity_of Toy.X2) HA) as (est & gap & _ & _ & Hc).
  - rewrite Heig. lia.
  - exists (Toy.affinity_of Toy.X2).
    exists (Z.min (Z.of_nat (length (Toy.affinity_of Toy.X2)) - 1)
              (Z.max 2 est)).
    split; [exact Hc|]. split; [exact Hlen|].
    rewrite Hlen. split; lia.
Qed.

(** ** Determinism and the random generator *)

(** The labels are the names of the ids the clustering object returns
    from the caller's generator state, with no seed. *)
Lemma label_segments_labels (E : Collaborators) (X : matrix)
  (g : rng_state E) :
  option_map fst (label_segments E X g)
  = (An <- label_segments_clusters E X ;;
     Py.mapM (Py.index SEGMENT_NAMES)
       (fst (fit_predict E (snd An) None (fst An) g))).
Proof.
  unfold label_segments.
  destruct (label_segments_clusters E X) as [[A n]|]; [|reflexivity].
  cbn [Py.bind fst snd].
  destruct (fit_predict E n None A g) as [seg_ids g']. cbn [fst].
  destruct (Py.mapM (Py.index SEGMENT_NAMES) seg_ids); reflexivity.
Qed.




(** ** Further properties of the boundary search *)

(** X1: when [kmax <= kmin] the loop of [get_segments] has no
    candidate: nothing is evaluated and the initial [S_best], the empty
    list, is returned. *)
Theorem get_segments_empty_range (E : Collaborators)
  (X W_bound W_lab : matrix) (use_spectral : bool) (kmin kmax : Z) :
  (kmax <= kmin)%Z ->
  get_segments E X W_bound W_lab use_spectral kmin kmax = Some [].
Proof.
  intros Hk. unfold get_segments, greedy_scan.
  rewrite range_down_nil by exact Hk. reflexivity.
Qed.

Lemma get_segments_empty_range_witness :
  get_segments Toy.collaborators Toy.X4 Toy.W2 Toy.W2 true 3 3 = Some [].
Proof.
  apply (get_segments_empty_range Toy.collaborators Toy.X4 Toy.W2 Toy.W2
           true 3 3).
  lia.
Defined.

Lemma accepted_costs_descend (cost_of : Z -> R) (kstar kmax : Z) :
  (forall j, (kstar <= j < kmax)%Z -> cost_of j <= cost_of (j + 1)%Z) ->
  forall n k, Z.to_nat (k - kstar) = n -> (kstar <= k <= kmax)%Z ->
    cost_of kstar <= cost_of k.
Proof.
  intros Hacc. induction n as [|n IH]; intros k Hn Hk.
  - assert (k = kstar) as -> by lia. lra.
  - apply Rle_trans with (cost_of (k - 1)%Z).
    + apply IH; lia.
    + replace k with (k - 1 + 1)%Z at 2 by lia. apply Hacc. lia.
Qed.

(** X2: the boundary set [get_segments] returns is the cheapest of the
    candidates it evaluated and accepted: its cost is at most the cost of
    every candidate from [kmax] down to the returned one. *)
Theorem get_segments_least_accepted_cost (E : Collaborators)
  (X W_bound W_lab : matrix) (use_spectral : bool) (kmin kmax : Z)
  (bounds_of : Z -> list Z) (cost_of : Z -> R) :
  (kmin < kmax)%Z ->
  (forall k, (kmin < k <= kmax)%Z ->
     get_k_segments E (Np.dot W_bound X) (Np.dot W_lab X) k use_spectral
     = Some (bounds_of k, cost_of k)) ->
  exists kstar,
    (kmin < kstar <= kmax)%Z
    /\ get_segments E X W_bound W_lab use_spectral kmin kmax
       = Some (bounds_of kstar)
    /\ forall k, (kstar <= k <= kmax)%Z -> cost_of kstar <= cost_of k.
Proof.
  intros Hlt Hret.
  destruct (greedy_scan_spec _ ecost_le Infinity
              (fun k =>
                 r <- get_k_segments E (Np.dot W_bound X) (Np.dot W_lab X)
                        k use_spectral ;;
                 Some (fst r, Finite (snd r)))
              bounds_of (fun k => Finite (cost_of k)) kmin kmax)
    as (kstar & Hr & Hs & Hacc & _).
  - intros k Hk. rewrite Hret by exact Hk. reflexivity.
  - exact Hlt.
  - reflexivity.
  - exists kstar. split; [exact Hr|]. split; [exact Hs|].
    intros k Hk.
    apply (accepted_costs_descend cost_of kstar kmax) with
      (n := Z.to_nat (k - kstar)); [|reflexivity|exact Hk].
    intros j Hj. apply ecost_le_Finite. apply Hacc. exact Hj.
Qed.

Lemma get_segments_least_accepted_cost_witness :
  exists kstar,
    (2 < kstar <= 4)%Z
    /\ get_segments Toy.collaborators Toy.X4 Toy.W2 Toy.W2 false 2 4
       = Some (Np.unique ([0%Z] ++ Toy.agglomerative
                                     (Np.dot Toy.W2 Toy.X4) kstar
                          ++ [Z.of_nat (Np.shape1 (Np.dot Toy.W2 Toy.X4))]))
    /\ forall k, (kstar <= k <= 4)%Z ->
         clustering_cost (Np.dot Toy.W2 Toy.X4)
           (Np.unique ([0%Z] ++ Toy.agglomerative
                                  (Np.dot Toy.W2 Toy.X4) kstar
                       ++ [Z.of_nat (Np.shape1 (Np.dot Toy.W2 Toy.X4))]))
         <= clustering_cost (Np.dot Toy.W2 Toy.X4)
              (Np.unique ([0%Z] ++ Toy.agglomerative
                                     (Np.dot Toy.W2 Toy.X4) k
                          ++ [Z.of_nat
                                (Np.shape1 (Np.dot Toy.W2 Toy.X4))])).
Proof.
  apply (get_segments_least_accepted_cost Toy.collaborators Toy.X4 Toy.W2
           Toy.W2 false 2 4
           (fun k =>
              Np.unique ([0%Z] ++ Toy.agglomerative
                                    (Np.dot Toy.W2 Toy.X4) k
                         ++ [Z.of_nat (Np.shape1 (Np.dot Toy.W2 Toy.X4))]))
           (fun k =>
              clustering_cost (Np.dot Toy.W2 Toy.X4)
                (Np.unique ([0%Z] ++ Toy.agglomerative
                                       (Np.dot Toy.W2 Toy.X4) k
                            ++ [Z.of_nat
                                  (Np.shape1 (Np.dot Toy.W2 Toy.X4))])))).
  - lia.
  - intros k Hk. reflexivity.
Defined.

(** X3: over binary64, when the cost of the first candidate [kmax] is
    NaN the comparison [cost <= np.inf] is false, the loop breaks at
    once, and the scan returns the empty list, its initial [S_best]. *)
Theorem greedy_scan_nan_first_cost
  (candidate : Z -> option (list Z * PrimFloat.float)) (kmin kmax : Z)
  (Sk : list Z) :
  (kmin < kmax)%Z ->
  candidate kmax = Some (Sk, PrimFloat.nan) ->
  greedy_scan PrimFloat.leb PrimFloat.infinity candidate kmin kmax
  = Some [].
Proof.
  intros Hlt Hnan. unfold greedy_scan.
  rewrite range_down_cons by lia. cbn [scan]. rewrite Hnan.
  reflexivity.
Qed.

Lemma greedy_scan_nan_first_cost_witness :
  Float64.scan_table Float64.costs_nan 1 4 = Some [].
Proof.
  apply (greedy_scan_nan_first_cost (Float64.lookup Float64.costs_nan) 1 4
           [4%Z]).
  - lia.
  - reflexivity.
Defined.


(** X5: the boundary set of [get_k_segments] holds exactly the frames
    the clustering collaborator reports, the frame 0 and the frame count
    [N]: no reported boundary is lost and nothing else is added, so it
    has at most two entries more than the collaborator's answer. *)
Theorem get_k_segments_keeps_reported_frames (E : Collaborators)
  (X_bound X_lab : matrix) (k : Z) (use_spectral : bool) (b : list Z)
  (c : R) :
  get_k_segments E X_bound X_lab k use_spectral = Some (b, c) ->
  (forall f,
      In f b <->
      f = 0%Z \/ f = Z.of_nat (Np.shape1 X_bound)
      \/ In f (agglomerative E X_bound k))
  /\ (length b <= length (agglomerative E X_bound k) + 2)%nat.
Proof.
  intros Hb. apply get_k_segments_boundaries in Hb. subst b. split.
  - intros f. rewrite unique_In. cbn [app In]. rewrite in_app_iff.
    cbn [In]. intuition.
  - assert (forall l, (length (Np.unique l) <= length l)%nat) as Hlen.
    { induction l as [|x l IH]; [apply le_n|].
      cbn [Np.unique fold_right]. fold (Np.unique l).
      assert (forall y s,
                 (length (Np.insert_unique y s) <= S (length s))%nat)
        as Hins.
      { intros y s. induction s as [|z s IHs]; cbn [Np.insert_unique];
          [apply le_n|].
        destruct (y <? z)%Z; [apply le_n|].
        destruct (y =? z)%Z; cbn [length]; lia. }
      specialize (Hins x (Np.unique l)). cbn [length]. lia. }
    specialize (Hlen ([0%Z] ++ agglomerative E X_bound k
                      ++ [Z.of_nat (Np.shape1 X_bound)])).
    rewrite length_app, length_app in Hlen. cbn [length] in Hlen. lia.
Qed.

Lemma get_k_segments_keeps_reported_frames_witness :
  (forall f,
      In f (Np.unique ([0; 0; 1; 2; 4])%Z) <->
      f = 0%Z \/ f = 4%Z \/ In f [0; 1; 2]%Z)
  /\ (length (Np.unique ([0; 0; 1; 2; 4])%Z) <= 3 + 2)%nat.
Proof.
  apply (get_k_segments_keeps_reported_frames Toy.collaborators Toy.X4
           Toy.X4 3 false (Np.unique ([0; 0; 1; 2; 4])%Z)
           (clustering_cost Toy.X4 (Np.unique ([0; 0; 1; 2; 4])%Z))).
  reflexivity.
Defined.

(** ** Further properties of the affinity matrix *)

(** X6: [label_build_affinity] raises (the [IndexError] of
    [np.sort(D, axis=1)[:, 1]]) exactly when it is given fewer than two
    points, on the default path and on the local one. *)
Theorem label_build_affinity_raises_iff (E : Collaborators) (X : matrix)
  (k : Z) (local : bool) :
  label_build_affinity E X k local = None <-> (length X < 2)%nat.
Proof.
  split.
  - intros Hnone. destruct (Nat.lt_ge_cases (length X) 2) as [Hlt|Hge];
      [exact Hlt|].
    exfalso. unfold label_build_affinity in Hnone.
    destruct (nearest_neighbour_column X Hge) as [Dsort HD].
    rewrite HD in Hnone. cbn [Py.bind] in Hnone. discriminate.
  - apply few_points_raise.
Qed.

Lemma insert_perm (x : R) (l : vector) :
  Permutation (Np.insert x l) (x :: l).
Proof.
  induction l as [|y l IH]; simpl; [reflexivity|].
  destruct (Rle_dec x y); [reflexivity|].
  rewrite IH. apply perm_swap.
Qed.


Lemma insert_sorted (x : R) (l : vector) :
  StronglySorted Rle l -> StronglySorted Rle (Np.insert x l).
Proof.
  induction l as [|y l IH]; simpl; intros Hs.
  - repeat constructor.
  - apply StronglySorted_inv in Hs as [Hl Hy].
    destruct (Rle_dec x y) as [Hle|Hgt].
    + constructor; [constructor; assumption|].
      constructor; [exact Hle|].
      eapply Forall_impl; [|exact Hy]. simpl. intros; lra.
    + constructor; [auto|].
      apply Forall_forall. intros a Ha.
      apply (Permutation_in _ (insert_perm x l)) in Ha.
      destruct Ha as [<-|Ha]; [lra|].
      rewrite Forall_forall in Hy. auto.
Qed.

Lemma sort_sorted (v : vector) : StronglySorted Rle (Np.sort v).
Proof.
  induction v as [|x v IH]; simpl; [constructor|].
  apply insert_sorted. exact IH.
Qed.







(** ** Further properties of the cluster-count estimate *)

Lemma fold_left_Rmax_ge_init (v : vector) (x : R) : x <= fold_left Rmax v x.
Proof.
  revert x. induction v as [|y v IH]; intros x; simpl; [lra|].
  apply Rle_trans with (2 := IH (Rmax x y)). apply Rmax_l.
Qed.

Lemma fold_left_Rmax_ge (v : vector) (x y : R) :
  In y v -> y <= fold_left Rmax v x.
Proof.
  revert x. induction v as [|z v IH]; intros x Hy; [contradiction|].
  simpl. destruct Hy as [->|Hy]; [|apply IH; exact Hy].
  apply Rle_trans with (2 := fold_left_Rmax_ge_init v (Rmax x y)).
  apply Rmax_r.
Qed.

Lemma fold_left_Rmax_In (v : vector) (x : R) :
  In (fold_left Rmax v x) (x :: v).
Proof.
  revert x. induction v as [|y v IH]; intros x; simpl; [left; reflexivity|].
  destruct (IH (Rmax x y)) as [Heq|Hin].
  - unfold Rmax in Heq at 1. simpl in Heq.
    destruct (Rle_dec x y); [right; left; exact Heq|left; exact Heq].
  - right. right. exact Hin.
Qed.

(** [np.argmax] returns the first position of a largest value. *)
Lemma argmax_from_spec (v : vector) :
  forall pre best_i best,
    (best_i < length pre)%nat -> nth best_i pre 0 = best ->
    (forall j, (j < length pre)%nat -> nth j pre 0 <= best) ->
    (forall j, (j < best_i)%nat -> nth j pre 0 < best) ->
    (Np.argmax_from best_i best (length pre) v < length (pre ++ v))%nat
    /\ (forall j, (j < length (pre ++ v))%nat ->
          nth j (pre ++ v) 0
          <= nth (Np.argmax_from best_i best (length pre) v) (pre ++ v) 0)
    /\ (forall j,
          (j < Np.argmax_from best_i best (length pre) v)%nat ->
          nth j (pre ++ v) 0
          < nth (Np.argmax_from best_i best (length pre) v) (pre ++ v) 0).
Proof.
  induction v as [|x v IH]; intros pre best_i best Hi Hbest Hmax Hfirst.
  - cbn [Np.argmax_from]. rewrite app_nil_r. rewrite Hbest.
    split; [exact Hi|]. split; assumption.
  - cbn [Np.argmax_from].
    replace (pre ++ x :: v) with ((pre ++ [x]) ++ v)
      by (rewrite <- app_assoc; reflexivity).
    replace (S (length pre)) with (length (pre ++ [x]))
      by (rewrite length_app; simpl; lia).
    destruct (Rlt_dec best x) as [Hlt|Hge].
    + apply IH.
      * rewrite length_app. simpl. lia.
      * rewrite app_nth2 by lia. rewrite Nat.sub_diag. reflexivity.
      * intros j Hj. rewrite length_app in Hj. simpl in Hj.
        destruct (Nat.lt_ge_cases j (length pre)) as [Hjl|Hjg].
        -- rewrite app_nth1 by exact Hjl. specialize (Hmax j Hjl). lra.
        -- replace j with (length pre) by lia.
           rewrite app_nth2 by lia. rewrite Nat.sub_diag. simpl. lra.
      * intros j Hj. rewrite app_nth1 by exact Hj.
        specialize (Hmax j Hj). lra.
    + apply IH.
      * rewrite length_app. simpl. lia.
      * rewrite app_nth1 by exact Hi. exact Hbest.
      * intros j Hj. rewrite length_app in Hj. simpl in Hj.
        destruct (Nat.lt_ge_cases j (length pre)) as [Hjl|Hjg].
        -- rewrite app_nth1 by exact Hjl. apply Hmax. exact Hjl.
        -- replace j with (length pre) by lia.
           rewrite app_nth2 by lia. rewrite Nat.sub_diag. simpl. lra.
      * intros j Hj. rewrite app_nth1 by lia. apply Hfirst. exact Hj.
Qed.

Lemma argmax_max_spec (v : vector) (i : nat) (m : R) :
  Np.argmax v = Some i -> Np.max v = Some m ->
  (i < length v)%nat
  /\ nth i v 0 = m
  /\ (forall j, (j < length v)%nat -> nth j v 0 <= m)
  /\ (forall j, (j < i)%nat -> nth j v 0 < m).
Proof.
  destruct v as [|x v]; [discriminate|].
  cbn [Np.argmax Np.max]. intros [= <-] [= <-].
  destruct (argmax_from_spec v [x] 0 x) as (Hi & Hmax & Hfirst).
  - simpl. lia.
  - reflexivity.
  - intros j Hj. simpl in Hj. replace j with 0%nat by lia. simpl. lra.
  - intros j Hj. lia.
  - change ([x] ++ v) with (x :: v) in *. change (length [x]) with 1%nat in *.
    set (i := Np.argmax_from 0 x 1 v) in *.
    assert (nth i (x :: v) 0 = fold_left Rmax v x) as Heq.
    { apply Rle_antisym.
      - destruct (Nat.eq_dec i 0) as [->|Hne].
        + simpl. apply fold_left_Rmax_ge_init.
        + apply fold_left_Rmax_ge.
          destruct i as [|i']; [contradiction|]. simpl.
          apply nth_In. simpl in Hi. lia.
      - destruct (In_nth _ _ 0 (fold_left_Rmax_In v x)) as (j & Hj & <-).
        apply Hmax. exact Hj. }
    rewrite <- Heq. split; [exact Hi|]. split; [reflexivity|].
    split; assumption.
Qed.

Lemma sorted_nth_le (s : vector) (i : nat) :
  StronglySorted Rle s -> (S i < length s)%nat ->
  nth i s 0 <= nth (S i) s 0.
Proof.
  intros Hs. revert i. induction Hs as [|x s Hs IH Hx]; intros i Hi.
  - simpl in Hi. lia.
  - destruct i as [|i].
    + simpl. rewrite Forall_forall in Hx. apply Hx. apply nth_In.
      simpl in Hi. lia.
    + change (nth i s 0 <= nth (S i) s 0). apply IH. simpl in Hi. lia.
Qed.

Lemma diff_nth (s : vector) (i : nat) :
  (S i < length s)%nat -> nth i (Np.diff s) 0 = nth (S i) s 0 - nth i s 0.
Proof.
  intros Hi. unfold Np.diff.
  rewrite (zip_with_nth Rminus 0 0 0) by (rewrite ?length_tl; lia).
  rewrite nth_tl. reflexivity.
Qed.

(** X8: given at least two eigenvalues, [label_estimate_n_components]
    returns [(est, gap)] where [gap] is the largest difference between
    consecutive eigenvalues in ascending order, it is not negative, and
    [est] is the first position at which it occurs:
    [gap = s[est] - s[est - 1]] with [1 <= est <= n - 1], and every
    earlier difference is strictly smaller. *)
Theorem label_estimate_n_components_largest_gap (E : Collaborators)
  (A : matrix) :
  (2 <= length (fst (eig E (rw_laplacian A))))%nat ->
  exists (est : nat) (gap : R),
    label_estimate_n_components E A = Some (Z.of_nat est, gap)
    /\ (1 <= est < length (fst (eig E (rw_laplacian A))))%nat
    /\ gap
       = nth est (Np.sort (map fst (fst (eig E (rw_laplacian A))))) 0
         - nth (est - 1)
             (Np.sort (map fst (fst (eig E (rw_laplacian A))))) 0
    /\ 0 <= gap
    /\ (forall i,
          (1 <= i < length (fst (eig E (rw_laplacian A))))%nat ->
          nth i (Np.sort (map fst (fst (eig E (rw_laplacian A))))) 0
          - nth (i - 1)
              (Np.sort (map fst (fst (eig E (rw_laplacian A))))) 0
          <= gap)
    /\ (forall i,
          (1 <= i < est)%nat ->
          nth i (Np.sort (map fst (fst (eig E (rw_laplacian A))))) 0
          - nth (i - 1)
              (Np.sort (map fst (fst (eig E (rw_laplacian A))))) 0
          < gap).
Proof.
  intros Hn. unfold label_estimate_n_components.
  set (s := Np.sort (map fst (fst (eig E (rw_laplacian A))))).
  assert (length s = length (fst (eig E (rw_laplacian A)))) as Hs
    by (unfold s; rewrite sort_length, length_map; reflexivity).
  assert (length (Np.diff s) = (length s - 1)%nat) as Hd
    by apply diff_length.
  destruct (Np.argmax (Np.diff s)) as [i|] eqn:Hi;
    [|destruct (Np.diff s); [simpl in Hd; lia|discriminate]].
  destruct (Np.max (Np.diff s)) as [m|] eqn:Hm;
    [|destruct (Np.diff s); [simpl in Hd; lia|discriminate]].
  cbn [Py.bind].
  destruct (argmax_max_spec _ _ _ Hi Hm) as (Hil & Him & Hmax & Hfirst).
  rewrite Hd in Hil, Hmax.
  exists (S i), m.
  replace (Z.of_nat (S i)) with (1 + Z.of_nat i)%Z by lia.
  split; [reflexivity|]. split; [lia|].
  replace (S i - 1)%nat with i by lia.
  split; [rewrite <- Him; apply diff_nth; lia|]. split.
  - rewrite <- Him, diff_nth by lia.
    pose proof (sorted_nth_le s i (sort_sorted _) ltac:(lia)). lra.
  - split.
    + intros j Hj. destruct j as [|j]; [lia|].
      replace (S j - 1)%nat with j by lia.
      rewrite <- diff_nth by lia. apply Hmax. lia.
    + intros j Hj. destruct j as [|j]; [lia|].
      replace (S j - 1)%nat with j by lia.
      rewrite <- diff_nth by lia. apply Hfirst. lia.
Qed.

Lemma toy_eig_length (L : matrix) :
  length (fst (eig Toy.collaborators L)) = length L.
Proof.
  cbn [eig Toy.collaborators]. unfold Toy.eig. cbn [fst].
  rewrite length_map, length_seq. reflexivity.
Qed.

Lemma label_estimate_n_components_largest_gap_witness :
  exists (est : nat) (gap : R),
    label_estimate_n_components Toy.collaborators Toy.L2
    = Some (Z.of_nat est, gap)
    /\ (1 <= est < 2)%nat
    /\ 0 <= gap.
Proof.
  destruct (label_estimate_n_components_largest_gap Toy.collaborators
              Toy.L2) as (est & gap & Hret & Hest & _ & Hgap & _).
  - rewrite toy_eig_length, rw_laplacian_length. simpl. lia.
  - exists est, gap. split; [exact Hret|]. split; [|exact Hgap].
    rewrite toy_eig_length, rw_laplacian_length in Hest. exact Hest.
Defined.

(** X9: [label_estimate_n_components] raises (the [ValueError] of
    [np.argmax] on an empty array) exactly when the eigen-solver returns
    fewer than two eigenvalues, that is, for an affinity matrix over
    fewer than two segments. *)
Theorem label_estimate_n_components_raises_iff (E : Collaborators)
  (A : matrix) :
  label_estimate_n_components E A = None
  <-> (length (fst (eig E (rw_laplacian A))) < 2)%nat.
Proof.
  split.
  - intros Hnone.
    destruct (Nat.lt_ge_cases (length (fst (eig E (rw_laplacian A)))) 2)
      as [Hlt|Hge]; [exact Hlt|].
    destruct (label_estimate_n_components_returns E A Hge)
      as (est & gap & Hret & _).
    rewrite Hret in Hnone. discriminate.
  - intros Hlt. unfold label_estimate_n_components.
    assert (Np.diff (Np.sort (map fst (fst (eig E (rw_laplacian A))))) = [])
      as ->; [|reflexivity].
    apply length_zero_iff_nil.
    rewrite diff_length, sort_length, length_map.
    unfold complex in *. lia.
Qed.

Lemma label_estimate_gap_nonneg (E : Collaborators) (A : matrix) :
  (2 <= length (fst (eig E (rw_laplacian A))))%nat ->
  exists est gap,
    label_estimate_n_components E A = Some (est, gap) /\ 0 <= gap.
Proof.
  intros Hn.
  destruct (label_estimate_n_components_returns E A Hn)
    as (est & gap & Hret & _).
  exists est, gap. split; [exact Hret|].
  unfold label_estimate_n_components in Hret.
  set (s := Np.sort (map fst (fst (eig E (rw_laplacian A))))) in *.
  destruct (Np.argmax (Np.diff s)) as [i|] eqn:Hi; [|discriminate].
  destruct (Np.max (Np.diff s)) as [m|] eqn:Hm; [|discriminate].
  cbn [Py.bind] in Hret. injection Hret as _ <-.
  destruct (argmax_max_spec _ _ _ Hi Hm) as (Hil & Him & _).
  rewrite diff_length in Hil.
  rewrite <- Him, diff_nth by lia.
  pose proof (sorted_nth_le s i (sort_sorted _) ltac:(lia)). lra.
Qed.

(** X10: when the affinity matrix of the synchronised segments is built
    and the eigen-solver returns at least two eigenvalues,
    [spectral_cost] returns the negated largest eigenvalue gap; the gap
    is never negative, so the floor [GAP_TAU = 0] leaves it unchanged and
    the cost is never positive. *)
Theorem spectral_cost_is_negated_gap (E : Collaborators) (X : matrix)
  (boundaries : list Z) (A : matrix) :
  label_build_affinity E (Np.transpose (sync E X boundaries)) LABEL_K false
  = Some A ->
  (2 <= length (fst (eig E (rw_laplacian A))))%nat ->
  exists est gap,
    label_estimate_n_components E A = Some (est, gap)
    /\ 0 <= gap
    /\ spectral_cost E X boundaries = Some (- gap)
    /\ - gap <= 0.
Proof.
  intros HA Hn.
  destruct (label_estimate_gap_nonneg E A Hn) as (est & gap & Hret & Hgap).
  exists est, gap. split; [exact Hret|]. split; [exact Hgap|].
  split; [|lra].
  unfold spectral_cost. rewrite HA. cbn [Py.bind]. rewrite Hret.
  cbn [Py.bind snd]. unfold GAP_TAU. rewrite Rmax_left by exact Hgap.
  reflexivity.
Qed.

Lemma spectral_cost_is_negated_gap_witness :
  exists est gap,
    label_estimate_n_components Toy.collaborators
      (Toy.affinity_of (Toy.sync Toy.X4 [0; 2; 4]%Z))
    = Some (est, gap)
    /\ 0 <= gap
    /\ spectral_cost Toy.collaborators Toy.X4 [0; 2; 4]%Z = Some (- gap)
    /\ - gap <= 0.
Proof.
  destruct (toy_affinity (Toy.sync Toy.X4 [0; 2; 4]%Z) 2 eq_refl (le_n 2)
              eq_refl) as (HA & _ & Heig).
  apply (spectral_cost_is_negated_gap Toy.collaborators Toy.X4
           [0; 2; 4]%Z (Toy.affinity_of (Toy.sync Toy.X4 [0; 2; 4]%Z)) HA).
  rewrite Heig. apply le_n.
Defined.

(** ** Further properties of the labels and the output lines *)

Lemma mapM_length {A B} (f : A -> option B) (l : list A) (l' : list B) :
  Py.mapM f l = Some l' -> length l' = length l.
Proof.
  revert l'. induction l as [|a l IH]; intros l'; cbn [Py.mapM].
  - intros [= <-]. reflexivity.
  - destruct (f a) as [b|]; [|discriminate].
    destruct (Py.mapM f l) as [bs|]; [|discriminate].
    intros [= <-]. cbn [length]. rewrite (IH bs eq_refl). reflexivity.
Qed.

Lemma mapM_nth {A B} (f : A -> option B) (l : list A) (l' : list B)
  (da : A) (db : B) (i : nat) :
  Py.mapM f l = Some l' -> (i < length l)%nat ->
  f (nth i l da) = Some (nth i l' db).
Proof.
  revert l' i. induction l as [|a l IH]; intros l' i; cbn [Py.mapM].
  - intros _ Hi. simpl in Hi. lia.
  - destruct (f a) as [b|] eqn:Hb; [|discriminate].
    destruct (Py.mapM f l) as [bs|]; [|discriminate].
    intros [= <-] Hi. destruct i as [|i]; [exact Hb|].
    cbn [nth]. apply IH; [reflexivity|simpl in Hi; lia].
Qed.

Lemma mapM_Some {A B} (f : A -> option B) (l : list A) :
  (forall a, In a l -> exists b, f a = Some b) ->
  exists l', Py.mapM f l = Some l'.
Proof.
  induction l as [|a l IH]; intros Hf; cbn [Py.mapM].
  - eexists. reflexivity.
  - destruct (Hf a (or_introl eq_refl)) as [b ->].
    destruct IH as [bs ->]; [intros a' Ha'; apply Hf; right; exact Ha'|].
    eexists. reflexivity.
Qed.

Lemma mapM_None {A B} (f : A -> option B) (l : list A) :
  Py.mapM f l = None <-> exists a, In a l /\ f a = None.
Proof.
  induction l as [|a l IH]; cbn [Py.mapM].
  - split; [discriminate|intros (a & [] & _)].
  - destruct (f a) as [b|] eqn:Hb.
    + destruct (Py.mapM f l) as [bs|].
      * split; [discriminate|].
        intros (a' & [<-|Ha'] & Hnone); [congruence|].
        assert (Some bs = None) as Habs; [|discriminate].
        apply IH. exists a'. split; assumption.
      * split; [|reflexivity]. intros _.
        destruct (proj1 IH eq_refl) as (a' & Ha' & Hnone).
        exists a'. split; [right; exact Ha'|exact Hnone].
    + split; [|reflexivity]. intros _. exists a.
      split; [left; reflexivity|exact Hb].
Qed.

Lemma names_index_injective (a b : Z) :
  (0 <= a < 702)%Z -> (0 <= b < 702)%Z ->
  Py.index SEGMENT_NAMES a = Py.index SEGMENT_NAMES b -> a = b.
Proof.
  intros Ha Hb Heq.
  rewrite !Names.index_nonneg in Heq by lia.
  assert (Z.to_nat a = Z.to_nat b) as Hn; [|lia].
  apply (proj1 (NoDup_nth_error SEGMENT_NAMES) Names.names_NoDup);
    [|exact Heq].
  rewrite Names.names_length. lia.
Qed.

Lemma names_index_defined (a : Z) :
  (0 <= a < 702)%Z -> exists s, Py.index SEGMENT_NAMES a = Some s.
Proof.
  intros Ha. rewrite Names.index_nonneg by lia.
  destruct (nth_error SEGMENT_NAMES (Z.to_nat a)) as [s|] eqn:Hs.
  - exists s. reflexivity.
  - apply nth_error_None in Hs. rewrite Names.names_length in Hs. lia.
Qed.

(** X11: when the clustering object returns ids between 0 and 701,
    [label_segments] returns one label per id, and two segments carry
    the same label exactly when they carry the same id. *)
Theorem label_segments_same_label_iff_same_id (E : Collaborators)
  (X A : matrix) (n : Z) (g : rng_state E) :
  label_segments_clusters E X = Some (A, n) ->
  Forall (fun id => (0 <= id < 702)%Z) (fst (fit_predict E n None A g)) ->
  exists labels,
    option_map fst (label_segments E X g) = Some labels
    /\ length labels = length (fst (fit_predict E n None A g))
    /\ forall i j,
         (i < length labels)%nat -> (j < length labels)%nat ->
         (nth i labels EmptyString = nth j labels EmptyString
          <-> nth i (fst (fit_predict E n None A g)) 0%Z
              = nth j (fst (fit_predict E n None A g)) 0%Z).
Proof.
  intros Hc Hids. rewrite label_segments_labels, Hc. cbn [Py.bind fst snd].
  set (ids := fst (fit_predict E n None A g)) in *.
  rewrite Forall_forall in Hids.
  destruct (mapM_Some (Py.index SEGMENT_NAMES) ids) as [labels Hl].
  { intros id Hid. apply names_index_defined. apply Hids. exact Hid. }
  exists labels. split; [exact Hl|].
  pose proof (mapM_length _ _ _ Hl) as Hlen.
  split; [exact Hlen|].
  intros i j Hi Hj. rewrite Hlen in Hi, Hj.
  pose proof (mapM_nth _ _ _ 0%Z EmptyString i Hl Hi) as Hni.
  pose proof (mapM_nth _ _ _ 0%Z EmptyString j Hl Hj) as Hnj.
  split.
  - intros Heq. apply names_index_injective.
    + apply Hids. apply nth_In. exact Hi.
    + apply Hids. apply nth_In. exact Hj.
    + rewrite Hni, Hnj, Heq. reflexivity.
  - intros Heq. rewrite Heq in Hni. rewrite Hni in Hnj.
    injection Hnj as Hnj. exact Hnj.
Qed.

Lemma toy_clusters_X3 :
  label_segments_clusters Toy.collaborators Toy.X3 = Some (Toy.A3, 2%Z)
  /\ length Toy.A3 = 3%nat.
Proof.
  destruct (toy_affinity Toy.X3 3 eq_refl (le_S _ _ (le_n 2)) eq_refl)
    as (HA & Hlen & Heig).
  destruct (label_segments_clusters_value Toy.collaborators Toy.X3
              (Toy.affinity_of Toy.X3) HA) as (est & gap & _ & _ & Hc);
    [rewrite Heig; lia|].
  rewrite Hlen in Hc.
  replace (Z.min (Z.of_nat 3 - 1) (Z.max 2 est)) with 2%Z in Hc by lia.
  split; [exact Hc|exact Hlen].
Qed.

Lemma label_segments_same_label_iff_same_id_witness :
  exists labels,
    option_map fst (label_segments Toy.collaborators Toy.X3 0%Z)
    = Some labels
    /\ length labels
       = length (fst (fit_predict Toy.collaborators 2 None Toy.A3 0%Z))
    /\ forall i j,
         (i < length labels)%nat -> (j < length labels)%nat ->
         (nth i labels EmptyString = nth j labels EmptyString
          <-> nth i (fst (fit_predict Toy.collaborators 2 None Toy.A3 0%Z))
                0%Z
              = nth j (fst (fit_predict Toy.collaborators 2 None Toy.A3 0%Z))
                  0%Z).
Proof.
  destruct toy_clusters_X3 as [Hc Hlen].
  apply (label_segments_same_label_iff_same_id Toy.collaborators Toy.X3
           Toy.A3 2 0%Z Hc).
  cbn [fit_predict Toy.collaborators]. unfold Toy.fit_predict.
  rewrite Hlen. cbn [fst]. repeat constructor; vm_compute; congruence.
Defined.

Lemma pairs_cons {A} (a b : A) (l : list A) :
  Py.pairs (a :: b :: l) = (a, b) :: Py.pairs (b :: l).
Proof. reflexivity. Qed.

Lemma pairs_length {A} (l : list A) :
  length (Py.pairs l) = (length l - 1)%nat.
Proof.
  induction l as [|a [|b l] IH]; try reflexivity.
  rewrite pairs_cons. cbn [length] in *. rewrite IH. lia.
Qed.

Lemma pairs_nth {A} (l : list A) (d : A) (i : nat) :
  (S i < length l)%nat ->
  nth i (Py.pairs l) (d, d) = (nth i l d, nth (S i) l d).
Proof.
  revert i. induction l as [|a [|b l] IH]; intros i Hi;
    try (simpl in Hi; lia).
  rewrite pairs_cons. destruct i as [|i]; [reflexivity|].
  cbn [nth]. rewrite IH by (simpl in *; lia). reflexivity.
Qed.

Lemma combine_nth_lt {A B} (l : list A) (l' : list B) (da : A) (db : B)
  (i : nat) :
  (i < length l)%nat -> (i < length l')%nat ->
  nth i (combine l l') (da, db) = (nth i l da, nth i l' db).
Proof.
  revert l' i. induction l as [|a l IH]; intros [|b l'] [|i] Hl Hl';
    simpl in *; try lia; try reflexivity.
  apply IH; lia.
Qed.

(** X12: when [save_segments] returns, it writes one line per pair of
    consecutive boundaries that has a label,
    [min (len S - 1) (len labels)] lines in all; line [i] runs from the
    beat time of boundary [i] to the beat time of boundary [i + 1] under
    label [i], so every line ends where the next one starts. *)
Theorem save_segments_lines_are_contiguous (Sb : list Z) (beats : vector)
  (labels : list string) (lines : list (R * R * string)) :
  save_segments Sb beats labels = Some lines ->
  length lines = Nat.min (length Sb - 1) (length labels)
  /\ (forall i, (i < length lines)%nat ->
        Py.index beats (nth i Sb 0%Z)
        = Some (fst (fst (nth i lines (0, 0, EmptyString))))
        /\ Py.index beats (nth (S i) Sb 0%Z)
           = Some (snd (fst (nth i lines (0, 0, EmptyString))))
        /\ snd (nth i lines (0, 0, EmptyString)) = nth i labels EmptyString)
  /\ (forall i, (S i < length lines)%nat ->
        snd (fst (nth i lines (0, 0, EmptyString)))
        = fst (fst (nth (S i) lines (0, 0, EmptyString)))).
Proof.
  unfold save_segments.
  destruct (Py.mapM (Py.index beats) Sb) as [times|] eqn:Ht; [|discriminate].
  cbn [Py.bind]. intros [= <-].
  pose proof (mapM_length _ _ _ Ht) as Hlen.
  assert (length (combine (Py.pairs times) labels)
          = Nat.min (length Sb - 1) (length labels)) as Hlines
    by (rewrite length_combine, pairs_length, Hlen; reflexivity).
  assert (forall i, (i < length (combine (Py.pairs times) labels))%nat ->
            nth i (combine (Py.pairs times) labels) (0, 0, EmptyString)
            = (nth i times 0, nth (S i) times 0, nth i labels EmptyString))
    as Hnth.
  { intros i Hi. rewrite Hlines in Hi.
    rewrite (combine_nth_lt (Py.pairs times) labels (0, 0) EmptyString)
      by (rewrite ?pairs_length, ?Hlen; lia).
    rewrite pairs_nth by (rewrite Hlen; lia). reflexivity. }
  split; [exact Hlines|]. split.
  - intros i Hi. rewrite (Hnth i Hi). cbn [fst snd].
    rewrite Hlines in Hi.
    split; [apply (mapM_nth _ _ _ 0%Z 0 i Ht); lia|].
    split; [apply (mapM_nth _ _ _ 0%Z 0 (S i) Ht); lia|reflexivity].
  - intros i Hi. rewrite (Hnth i) by lia. rewrite (Hnth (S i) Hi).
    reflexivity.
Qed.

Lemma save_segments_lines_are_contiguous_witness :
  length [(0, 2, "A"%string); (2, 4, "B"%string)]
  = Nat.min (length [0; 2; 4]%Z - 1) (length ["A"; "B"]%string)
  /\ (forall i, (i < length [(0, 2, "A"%string); (2, 4, "B"%string)])%nat ->
        Py.index Toy.beats4 (nth i [0; 2; 4]%Z 0%Z)
        = Some (fst (fst (nth i [(0, 2, "A"%string); (2, 4, "B"%string)]
                            (0, 0, EmptyString))))
        /\ Py.index Toy.beats4 (nth (S i) [0; 2; 4]%Z 0%Z)
           = Some (snd (fst (nth i [(0, 2, "A"%string); (2, 4, "B"%string)]
                               (0, 0, EmptyString))))
        /\ snd (nth i [(0, 2, "A"%string); (2, 4, "B"%string)]
                  (0, 0, EmptyString))
           = nth i ["A"; "B"]%string EmptyString)
  /\ (forall i, (S i < length [(0, 2, "A"%string); (2, 4, "B"%string)])%nat ->
        snd (fst (nth i [(0, 2, "A"%string); (2, 4, "B"%string)]
                    (0, 0, EmptyString)))
        = fst (fst (nth (S i) [(0, 2, "A"%string); (2, 4, "B"%string)]
                      (0, 0, EmptyString)))).
Proof.
  apply (save_segments_lines_are_contiguous [0; 2; 4]%Z Toy.beats4
           ["A"; "B"]%string).
  reflexivity.
Defined.

Lemma index_None_iff {A} (l : list A) (i : Z) :
  Py.index l i = None
  <-> ~ (- Z.of_nat (length l) <= i < Z.of_nat (length l))%Z.
Proof.
  unfold Py.index.
  destruct (Z.leb_spec 0 i) as [Hpos|Hneg].
  - rewrite nth_error_None. lia.
  - destruct (Z.leb_spec 0 (Z.of_nat (length l) + i)) as [Hin|Hout].
    + rewrite nth_error_None. lia.
    + split; [lia|reflexivity].
Qed.

(** X13: [save_segments] raises (the [IndexError] of [beats[S]]) exactly
    when some boundary is not an index of the beat array, that is, lies
    outside [-len(beats), len(beats))]; the labels never make it fail. *)
Theorem save_segments_raises_iff (Sb : list Z) (beats : vector)
  (labels : list string) :
  save_segments Sb beats labels = None
  <-> exists b,
        In b Sb
        /\ ~ (- Z.of_nat (length beats) <= b < Z.of_nat (length beats))%Z.
Proof.
  unfold save_segments. split.
  - destruct (Py.mapM (Py.index beats) Sb) as [times|] eqn:Ht;
      [discriminate|].
    intros _. apply mapM_None in Ht as (b & Hb & Hnone).
    exists b. split; [exact Hb|]. apply index_None_iff. exact Hnone.
  - intros (b & Hb & Hout).
    assert (Py.mapM (Py.index beats) Sb = None) as ->; [|reflexivity].
    apply mapM_None. exists b. split; [exact Hb|].
    apply index_None_iff. exact Hout.
Qed.

(** ** Matrix products: the identity transform and the Laplacian *)

Lemma sum_app (a b : vector) : Np.sum (a ++ b) = Np.sum a + Np.sum b.
Proof.
  induction a as [|x a IH]; [simpl; ring|].
  change (x + Np.sum (a ++ b) = x + Np.sum a + Np.sum b).
  rewrite IH. ring.
Qed.

Lemma sum_seq_zero (f : nat -> R) (start n : nat) :
  (forall k, (start <= k < start + n)%nat -> f k = 0) ->
  Np.sum (map f (seq start n)) = 0.
Proof.
  revert start. induction n as [|n IH]; intros start Hf; [reflexivity|].
  cbn [seq map]. change (f start + Np.sum (map f (seq (S start) n)) = 0).
  rewrite IH by (intros k Hk; apply Hf; lia).
  rewrite Hf by lia. ring.
Qed.

(** A sum that meets one non-zero term. *)
Lemma sum_seq_single (f : nat -> R) (n i : nat) :
  (i < n)%nat ->
  (forall k, (k < n)%nat -> k <> i -> f k = 0) ->
  Np.sum (map f (seq 0 n)) = f i.
Proof.
  intros Hi Hf.
  replace n with (i + (1 + (n - i - 1)))%nat by lia.
  rewrite !seq_app, !map_app, !sum_app. cbn [seq map].
  rewrite sum_seq_zero by (intros k Hk; apply Hf; lia).
  rewrite (sum_seq_zero f (0 + i + 1)) by (intros k Hk; apply Hf; lia).
  simpl. ring.
Qed.


Lemma dot_entry (A B : matrix) (i j : nat) :
  (i < Np.shape0 A)%nat -> (j < Np.shape1 B)%nat ->
  Np.entry 0 (Np.dot A B) i j
  = Np.sum (map (fun k => Np.entry 0 A i k * Np.entry 0 B k j)
              (seq 0 (Np.shape1 A))).
Proof.
  intros Hi Hj. unfold Np.dot.
  rewrite (tabulate_entry 0 (Np.shape0 A) (Np.shape1 B)
             (fun i j =>
                Np.sum (map (fun k => Np.entry 0 A i k * Np.entry 0 B k j)
                          (seq 0 (Np.shape1 A))))) by assumption.
  reflexivity.
Qed.

(** The product with [np.eye(n)] on the left leaves an array of [n] rows
    unchanged. *)
Lemma dot_eye (n m : nat) (X : matrix) :
  has_shape n m X -> Np.dot (Np.eye n 0) X = X.
Proof.
  intros HX. destruct (Nat.eq_dec n 0) as [->|Hn].
  - destruct HX as [HX _]. apply length_zero_iff_nil in HX. subst X.
    reflexivity.
  - assert (Np.shape0 (Np.eye n 0) = n) as Hs0 by apply tabulate_length.
    assert (Np.shape1 (Np.eye n 0) = n) as Hs1
      by (apply (has_shape_shape1 n n); [apply eye_shape|lia]).
    assert (Np.shape1 X = m) as HXm
      by (apply (has_shape_shape1 n m); [exact HX|lia]).
    apply (matrix_ext 0 n m); [|exact HX|].
    + unfold Np.dot. rewrite Hs0, HXm. apply tabulate_shape.
    + intros i j Hi Hj.
      rewrite dot_entry by (rewrite ?Hs0, ?HXm; assumption).
      rewrite Hs1.
      rewrite (sum_seq_single _ n i Hi).
      * rewrite eye_entry by assumption.
        destruct (Z.eqb_spec (Z.of_nat i) (Z.of_nat i + 0)); [ring|lia].
      * intros k Hk Hne. rewrite eye_entry by assumption.
        destruct (Z.eqb_spec (Z.of_nat k) (Z.of_nat i + 0)); [lia|ring].
Qed.

(** X14: without a transform file [load_transform] returns the identity
    of size [__DIMENSION] = 112, and the projection [W.dot(X)] that
    [get_segments] and [do_segmentation] compute with it leaves every
    feature matrix of 112 rows unchanged; a transform that was loaded is
    returned as it is. *)
Theorem load_transform_default_is_identity (X : matrix) (m : nat) :
  has_shape __DIMENSION m X ->
  __DIMENSION = 112%nat
  /\ Np.dot (load_transform None) X = X
  /\ (forall W, load_transform (Some W) = W).
Proof.
  intros HX. split; [reflexivity|]. split; [|reflexivity].
  unfold load_transform. apply (dot_eye __DIMENSION m). exact HX.
Qed.

Lemma load_transform_default_is_identity_witness :
  __DIMENSION = 112%nat
  /\ Np.dot (load_transform None) (Np.tabulate __DIMENSION 2 (fun _ _ => 1))
     = Np.tabulate __DIMENSION 2 (fun _ _ => 1)
  /\ (forall W, load_transform (Some W) = W).
Proof.
  apply (load_transform_default_is_identity
           (Np.tabulate __DIMENSION 2 (fun _ _ => 1)) 2).
  apply tabulate_shape.
Defined.






(** ** Further properties of the likelihood cost *)

Lemma sum_squares_nonneg (mu : R) (row : vector) :
  0 <= Np.sum (map (fun x => (x - mu) ^ 2) row).
Proof.
  apply sum_nonneg. apply Forall_forall. intros y Hy.
  apply in_map_iff in Hy as (x & <- & _). apply pow2_ge_0.
Qed.

Lemma var_ddof1_nonneg (row : vector) :
  (2 <= length row)%nat -> 0 <= Np.var_ddof1 row.
Proof.
  intros Hn. unfold Np.var_ddof1.
  apply Rmult_le_pos; [apply sum_squares_nonneg|].
  left. apply Rinv_0_lt_compat.
  apply le_INR in Hn. simpl in Hn. lra.
Qed.

Lemma ln_2PI_pos : 0 < ln (2 * PI).
Proof.
  rewrite <- ln_1. apply ln_increasing; [lra|].
  pose proof PI2_1. lra.
Qed.

Lemma gaussian_cost_nonpos (X : matrix) :
  row_length (Np.shape1 X) X -> gaussian_cost X <= 0.
Proof.
  intros Hrows. unfold gaussian_cost.
  destruct (Nat.ltb_spec (Np.shape1 X) 2) as [Hlt|Hge]; [lra|].
  assert (0 <= Np.sum (map Np.var_ddof1 X)) as Hvar.
  { apply sum_nonneg. apply Forall_forall. intros y Hy.
    apply in_map_iff in Hy as (row & <- & Hrow).
    apply var_ddof1_nonneg.
    unfold row_length in Hrows. rewrite Forall_forall in Hrows.
    rewrite (Hrows row Hrow). exact Hge. }
  pose proof ln_2PI_pos as Hln.
  pose proof (pos_INR (Np.shape0 X)) as Hd.
  pose proof (pos_INR (Np.shape1 X)) as Hn.
  assert (1 <= INR (Np.shape1 X)) as Hn1
    by (apply (le_INR 1); lia).
  assert (0 <= INR (Np.shape0 X) * INR (Np.shape1 X) * ln (2 * PI))
    by (apply Rmult_le_pos; [apply Rmult_le_pos; assumption|lra]).
  assert (0 <= (INR (Np.shape1 X) - 1) * Np.sum (map Np.var_ddof1 X))
    by (apply Rmult_le_pos; [lra|exact Hvar]).
  lra.
Qed.

Lemma sum_nonpos (v : vector) : Forall (fun x => x <= 0) v -> Np.sum v <= 0.
Proof.
  induction 1 as [|x v Hx _ IH]; simpl in *; lra.
Qed.

(** X16: for a matrix whose rows all have [N > 0] entries the segment
    term [gaussian_cost] is never positive, so the likelihood-penalized
    cost is never below its penalty [2 * D * k]; it equals the penalty
    when every segment has fewer than two frames. *)
Theorem clustering_cost_at_least_penalty (X : matrix)
  (boundaries : list Z) :
  row_length (Np.shape1 X) X ->
  (0 < Np.shape1 X)%nat ->
  gaussian_cost X <= 0
  /\ 2 * (INR (Np.shape0 X) * IZR (Z.of_nat (length boundaries) - 1))
     <= clustering_cost X boundaries
  /\ (Forall
        (fun se =>
           (Np.shape1 (Np.slice_columns X (fst se) (snd se)) < 2)%nat)
        (Py.pairs boundaries) ->
      clustering_cost X boundaries
      = 2 * (INR (Np.shape0 X) * IZR (Z.of_nat (length boundaries) - 1))).
Proof.
  intros Hrows Hn.
  split; [apply gaussian_cost_nonpos; exact Hrows|].
  assert (0 < INR (Np.shape1 X)) as HN by (apply (lt_INR 0); exact Hn).
  unfold clustering_cost. split.
  - assert (Np.sum
              (map (fun se =>
                      gaussian_cost (Np.slice_columns X (fst se) (snd se)))
                 (Py.pairs boundaries)) <= 0) as Hsum.
    { apply sum_nonpos. apply Forall_forall. intros y Hy.
      apply in_map_iff in Hy as (se & <- & _).
      apply gaussian_cost_nonpos.
      eapply slice_columns_row_length. exact Hrows. }
    assert (0 <= - 2
                 * Np.sum
                     (map (fun se =>
                             gaussian_cost
                               (Np.slice_columns X (fst se) (snd se)))
                        (Py.pairs boundaries))
                 / INR (Np.shape1 X)).
    { apply Rmult_le_pos; [lra|left; apply Rinv_0_lt_compat; exact HN]. }
    lra.
  - intros Hshort.
    assert (Np.sum
              (map (fun se =>
                      gaussian_cost (Np.slice_columns X (fst se) (snd se)))
                 (Py.pairs boundaries)) = 0) as ->.
    { induction Hshort as [|se l Hse _ IH]; [reflexivity|].
      cbn [map].
      change (gaussian_cost (Np.slice_columns X (fst se) (snd se))
              + Np.sum
                  (map (fun se =>
                          gaussian_cost
                            (Np.slice_columns X (fst se) (snd se))) l)
              = 0).
      rewrite IH. unfold gaussian_cost.
      destruct (Nat.ltb_spec
                  (Np.shape1 (Np.slice_columns X (fst se) (snd se))) 2);
        [ring|lia]. }
    unfold Rdiv. ring.
Qed.

Lemma clustering_cost_at_least_penalty_witness :
  gaussian_cost Toy.X4 <= 0
  /\ 2 * (INR (Np.shape0 Toy.X4) * IZR (Z.of_nat (length [0; 2; 4]%Z) - 1))
     <= clustering_cost Toy.X4 [0; 2; 4]%Z.
Proof.
  destruct (clustering_cost_at_least_penalty Toy.X4 [0; 2; 4]%Z)
    as (Hcost & Hbound & _).
  - repeat constructor.
  - unfold Np.shape1, Toy.X4. simpl. lia.
  - split; [exact Hcost|exact Hbound].
Defined.





(** ** Further properties of the repetition features *)

Lemma laplacian_eigenvectors_shape (E : Collaborators) (L : matrix)
  (k : nat) :
  (1 <= length L)%nat ->
  length (fst (eig E L)) = length L ->
  has_shape (length L) (length L) (snd (eig E L)) ->
  has_shape k (length L) (laplacian_eigenvectors E L k).
Proof.
  intros HN Hvals Hvecs.
  rewrite (laplacian_eigenvectors_rows E L k HN Hvals Hvecs).
  apply transpose_of_shape; [|lia].
  split.
  - rewrite length_map. apply Hvecs.
  - unfold row_length. rewrite Forall_map. apply Forall_forall.
    intros row _.
    rewrite length_firstn, length_app, length_tl, length_map,
      repeat_length, argsort_length, length_map.
    unfold complex in *. rewrite Hvals. lia.
Qed.

(** X18: for a filtered recurrence matrix over [N >= 1] frames and an
    eigen-solver that returns [N] eigenvalues and an [N]-by-[N] array
    for the Laplacian of the repetition graph, [repetition] returns a
    block of exactly [N_REP] = 32 rows of [N] entries, whatever [N] is:
    the number of feature rows does not depend on the length of the
    song. *)
Theorem repetition_shape (E : Collaborators) (X : matrix)
  (metric : string) (N : nat) :
  (1 <= N)%nat ->
  has_shape N N (repetition_filtered E X metric) ->
  length (fst (eig E (rw_laplacian (repetition_graph E X metric)))) = N ->
  has_shape N N
    (snd (eig E (rw_laplacian (repetition_graph E X metric)))) ->
  has_shape 32 N (repetition E X metric).
Proof.
  intros HN HRf Hvals Hvecs. unfold repetition.
  assert (length (rw_laplacian (repetition_graph E X metric)) = N) as HL.
  { rewrite rw_laplacian_length.
    apply (repetition_graph_entries E X metric N 0 0 HRf); lia. }
  change N_REP with 32%nat. rewrite <- HL.
  apply laplacian_eigenvectors_shape; rewrite HL; assumption.
Qed.

Lemma repetition_shape_witness :
  has_shape 32 4 (repetition Toy.collaborators Toy.X4 "sqeuclidean").
Proof.
  apply (repetition_shape Toy.collaborators Toy.X4 "sqeuclidean" 4).
  - lia.
  - rewrite toy_filtered_recurrence. split; [reflexivity|repeat constructor].
  - rewrite toy_eig_length, rw_laplacian_length. reflexivity.
  - cbn [eig Toy.collaborators]. unfold Toy.eig. cbn [snd].
    rewrite rw_laplacian_length.
    replace (length (repetition_graph Toy.collaborators Toy.X4
                       "sqeuclidean")) with 4%nat by reflexivity.
    apply tabulate_shape.
Defined.

Lemma slice_trim_length {A} (w m : nat) (row : list A) :
  length row = (m + 2 * w)%nat -> (0 < w)%nat ->
  length (Py.slice row (Z.of_nat w) (- Z.of_nat w)) = m.
Proof.
  intros Hrow Hw. rewrite slice_length, Hrow. unfold Py.slice_bound.
  destruct (Z.ltb_spec (Z.of_nat w) 0) as [Hneg|_]; [lia|].
  destruct (Z.ltb_spec (- Z.of_nat w) 0) as [_|Hpos]; [|lia].
  lia.
Qed.

Lemma slice_trim_nth {A} (w m : nat) (row : list A) (d : A) (j : nat) :
  length row = (m + 2 * w)%nat -> (0 < w)%nat -> (j < m)%nat ->
  nth j (Py.slice row (Z.of_nat w) (- Z.of_nat w)) d = nth (w + j) row d.
Proof.
  intros Hrow Hw Hj. unfold Py.slice. rewrite Hrow. unfold Py.slice_bound.
  destruct (Z.ltb_spec (Z.of_nat w) 0) as [Hneg|_]; [lia|].
  destruct (Z.ltb_spec (- Z.of_nat w) 0) as [_|Hpos]; [|lia].
  rewrite nth_firstn.
  destruct (Nat.ltb_spec j
              (Z.to_nat
                 (Z.max 0 (Z.of_nat (m + 2 * w) + - Z.of_nat w)
                  - Z.min (Z.of_nat w) (Z.of_nat (m + 2 * w)))))
    as [_|Hge]; [|lia].
  rewrite nth_skipn. f_equal. lia.
Qed.

(** X19: when the padded and median-filtered array has [REP_WIDTH]
    columns more on either side than the [n]-by-[m] input, [clean_reps]
    cuts exactly these off: its result is [n]-by-[m], and its entry
    [(i, j)] is the entry [(i, j + REP_WIDTH)] of the filtered array. *)
Theorem clean_reps_trims_padding (E : Collaborators) (Sm : matrix)
  (n m : nat) :
  has_shape n (m + 2 * REP_WIDTH)
    (medfilt2d E (pad_reflect E Sm REP_WIDTH) (1%nat, REP_WIDTH)) ->
  has_shape n m (clean_reps E Sm)
  /\ forall i j, (i < n)%nat -> (j < m)%nat ->
       Np.entry 0 (clean_reps E Sm) i j
       = Np.entry 0
           (medfilt2d E (pad_reflect E Sm REP_WIDTH) (1%nat, REP_WIDTH))
           i (REP_WIDTH + j).
Proof.
  intros HF. unfold clean_reps.
  set (F := medfilt2d E (pad_reflect E Sm REP_WIDTH) (1%nat, REP_WIDTH))
    in *.
  assert (0 < REP_WIDTH)%nat as Hw by (unfold REP_WIDTH; lia).
  split.
  - unfold Np.slice_columns. split.
    + rewrite length_map. apply HF.
    + unfold row_length. rewrite Forall_map.
      destruct HF as [_ HF]. unfold row_length in HF.
      eapply Forall_impl; [|exact HF]. simpl. intros row Hrow.
      apply (slice_trim_length REP_WIDTH m row Hrow Hw).
  - intros i j Hi Hj. unfold Np.entry, Np.slice_columns.
    rewrite (nth_map_in _ F [] [] i)
      by (destruct HF as [HFn _]; rewrite <- HFn in Hi; exact Hi).
    apply (slice_trim_nth REP_WIDTH m); [|exact Hw|exact Hj].
    apply (has_shape_row n (m + 2 * REP_WIDTH) F i HF Hi).
Qed.

Lemma clean_reps_trims_padding_witness :
  has_shape 2 4 (clean_reps Toy.collaborators Toy.X4)
  /\ forall i j, (i < 2)%nat -> (j < 4)%nat ->
       Np.entry 0 (clean_reps Toy.collaborators Toy.X4) i j
       = Np.entry 0
           (medfilt2d Toy.collaborators
              (pad_reflect Toy.collaborators Toy.X4 REP_WIDTH)
              (1%nat, REP_WIDTH))
           i (REP_WIDTH + j).
Proof.
  apply (clean_reps_trims_padding Toy.collaborators Toy.X4 2 4).
  split; [reflexivity|repeat constructor].
Defined.

(** ** The local-bandwidth path of the affinity matrix *)

Lemma nearest_neighbour_column_length (X : matrix) :
  (2 <= length X)%nat ->
  exists Dsort,
    Np.column (map Np.sort (Np.mmap (fun x => x ^ 2) (Np.cdist X X))) 1
    = Some Dsort
    /\ length Dsort = length X.
Proof.
  intros Hn. unfold Np.column.
  assert (Np.shape1 (map Np.sort (Np.mmap (fun x => x ^ 2) (Np.cdist X X)))
          = length X) as ->.
  { apply (has_shape_shape1 (length X)); [|lia].
    destruct (sqdist_shape X) as [Hl Hr]. split.
    - rewrite length_map. exact Hl.
    - unfold row_length in *. rewrite Forall_map.
      eapply Forall_impl; [|exact Hr]. simpl. intros row Hrow.
      rewrite sort_length. exact Hrow. }
  destruct (Nat.ltb_spec 1 (length X)) as [_|Hle]; [|lia].
  eexists. split; [reflexivity|].
  unfold Np.mmap, Np.cdist. rewrite !length_map. reflexivity.
Qed.

(** X20: on the local-bandwidth path ([local=True]) too, for at least
    two points and a symmetric [n]-by-[n] neighbour graph, the affinity
    matrix is [n]-by-[n], equal to its transpose and non-negative, with
    every diagonal entry at least 1. *)
Theorem label_build_affinity_local_symmetric (E : Collaborators)
  (X : matrix) (k : Z) :
  (2 <= length X)%nat ->
  has_shape (length X) (length X)
    (recurrence_matrix E (Np.transpose X)
       (Z.min k (Z.of_nat (length X) - 1)) 1 "sqeuclidean" true) ->
  Np.transpose_of false
    (recurrence_matrix E (Np.transpose X)
       (Z.min k (Z.of_nat (length X) - 1)) 1 "sqeuclidean" true)
  = recurrence_matrix E (Np.transpose X)
      (Z.min k (Z.of_nat (length X) - 1)) 1 "sqeuclidean" true ->
  exists A,
    label_build_affinity E X k true = Some A
    /\ has_shape (length X) (length X) A
    /\ Np.transpose A = A
    /\ Forall (Forall (fun a => 0 <= a)) A
    /\ (forall i, (i < length X)%nat -> 1 <= Np.entry 0 A i i).
Proof.
  intros Hn HK Hsym. unfold label_build_affinity.
  destruct (nearest_neighbour_column_length X Hn) as (Dsort & -> & Hlen).
  cbn [Py.bind].
  set (d := map (fun x => Rmax x SIGMA_MIN) Dsort).
  set (sigma := map (fun a => map (fun b => sqrt (a * b)) d) d).
  set (D := Np.mmap (fun x => x ^ 2) (Np.cdist X X)).
  set (K := recurrence_matrix E (Np.transpose X)
              (Z.min k (Z.of_nat (length X) - 1)) 1 "sqeuclidean" true)
    in *.
  assert (length d = length X) as Hd
    by (unfold d; rewrite length_map; exact Hlen).
  pose proof (sqdist_shape X) as HD. fold D in HD.
  assert (has_shape (length X) (length X) sigma) as Hsigma.
  { unfold sigma. split; [rewrite length_map; exact Hd|].
    unfold row_length. rewrite Forall_map. apply Forall_forall.
    intros a _. rewrite length_map. exact Hd. }
  assert (forall i j, (i < length X)%nat -> (j < length X)%nat ->
            Np.entry 0 sigma i j = sqrt (nth i d 0 * nth j d 0)) as Hsig.
  { intros i j Hi Hj. unfold Np.entry, sigma.
    rewrite (nth_map_in _ d 0 [] i) by (rewrite Hd; exact Hi).
    rewrite (nth_map_in _ d 0 0 j) by (rewrite Hd; exact Hj).
    reflexivity. }
  set (A0 := Np.mzip_with (fun d s => exp (- (1 / 2) * (d / s))) D sigma).
  assert (has_shape (length X) (length X) A0) as HA0
    by (apply mzip_with_shape; assumption).
  assert (has_shape (length X) (length X)
            (Np.mzip_with Rplus (Np.mmap Np.of_bool K)
               (Np.eye (length X) 0))) as HK1.
  { apply mzip_with_shape; [apply mmap_shape; exact HK|apply eye_shape]. }
  assert (has_shape (length X) (length X)
            (Np.mzip_with Rmult A0
               (Np.mzip_with Rplus (Np.mmap Np.of_bool K)
                  (Np.eye (length X) 0)))) as Hshape
    by (apply mzip_with_shape; assumption).
  assert (forall i j, (i < length X)%nat -> (j < length X)%nat ->
            Np.entry 0
              (Np.mzip_with Rmult A0
                 (Np.mzip_with Rplus (Np.mmap Np.of_bool K)
                    (Np.eye (length X) 0))) i j
            = exp (- (1 / 2)
                   * (Np.sqeuclidean (nth i X []) (nth j X [])
                      / sqrt (nth i d 0 * nth j d 0)))
              * (Np.of_bool (Np.entry false K i j)
                 + (if (Z.of_nat j =? Z.of_nat i + 0)%Z then 1 else 0)))
    as Hent.
  { intros i j Hi Hj.
    rewrite (mzip_with_entry Rmult 0 0 0 (length X) (length X)) by assumption.
    unfold A0.
    rewrite (mzip_with_entry (fun d s => exp (- (1 / 2) * (d / s))) 0 0 0
               (length X) (length X)) by assumption.
    rewrite (mzip_with_entry Rplus 0 0 0 (length X) (length X));
      [|apply mmap_shape; exact HK|apply eye_shape|exact Hi|exact Hj].
    rewrite (mmap_entry Np.of_bool false 0 (length X) (length X))
      by assumption.
    rewrite eye_entry by assumption.
    rewrite Hsig by assumption.
    unfold D. rewrite sqdist_entry by assumption. reflexivity. }
  eexists. split; [reflexivity|]. split; [exact Hshape|]. split; [|split].
  - apply (matrix_ext 0 (length X) (length X));
      [apply transpose_of_shape; [exact Hshape|lia]|exact Hshape|].
    intros i j Hi Hj. unfold Np.transpose.
    rewrite (transpose_of_entry 0 (length X) (length X)) by assumption.
    rewrite !Hent by assumption.
    rewrite (sqeuclidean_sym (nth j X []) (nth i X [])).
    rewrite (Rmult_comm (nth j d 0) (nth i d 0)).
    rewrite (symmetric_entries false (length X) _ j i HK Hsym Hj Hi).
    f_equal. f_equal.
    destruct (Z.eqb_spec (Z.of_nat i) (Z.of_nat j + 0)),
      (Z.eqb_spec (Z.of_nat j) (Z.of_nat i + 0)); try reflexivity; lia.
  - apply (entries_Forall _ 0 (length X) (length X)); [exact Hshape|].
    intros i j Hi Hj. rewrite Hent by assumption.
    apply Rmult_le_pos; [left; apply exp_pos|].
    pose proof (of_bool_nonneg (Np.entry false K i j)).
    destruct (Z.of_nat j =? Z.of_nat i + 0)%Z; lra.
  - intros i Hi. rewrite Hent by assumption.
    rewrite sqeuclidean_self.
    replace (- (1 / 2) * (0 / sqrt (nth i d 0 * nth i d 0))) with 0
      by (unfold Rdiv; ring).
    rewrite exp_0.
    pose proof (of_bool_nonneg (Np.entry false K i i)).
    destruct (Z.eqb_spec (Z.of_nat i) (Z.of_nat i + 0)); [lra|lia].
Qed.

Lemma label_build_affinity_local_symmetric_witness :
  exists A,
    label_build_affinity Toy.collaborators Toy.P3 LABEL_K true = Some A
    /\ has_shape 3 3 A
    /\ Np.transpose A = A
    /\ Forall (Forall (fun a => 0 <= a)) A
    /\ (forall i, (i < 3)%nat -> 1 <= Np.entry 0 A i i).
Proof.
  apply (label_build_affinity_local_symmetric Toy.collaborators Toy.P3
           LABEL_K).
  - simpl. lia.
  - split; [reflexivity|repeat constructor].
  - reflexivity.
Defined.
